(** * soundbuf.cc: the sample ring between the audio callback and the
    visualizer

    A shallow embedding of [sndbuf_store] and [getNextFragment] and the
    properties of the ring they share.  Both functions hold the one mutex
    for their whole body, so each call is one atomic step on the module's
    static variables; the only suspension point is the wait loop at the top
    of [getNextFragment]. *)

From Stdlib Require Import ZArith Lia.
From stdpp Require Import base list.

Open Scope Z_scope.

(** ** Machine integers

    [unsigned int] and [int] are 32 bits wide.  Values are kept in [Z] and
    every conversion the C++ code performs is written out. *)

Definition UINT_MOD : Z := 2 ^ 32.
Definition INT_MAX : Z := 2 ^ 31 - 1.

(** Conversion to [unsigned int]: reduction modulo 2^32. *)
Definition to_unsigned (x : Z) : Z := x mod UINT_MOD.

(** Conversion to [int]: the two's complement reading of the low 32 bits. *)
Definition to_int (x : Z) : Z := (x + 2 ^ 31) mod UINT_MOD - 2 ^ 31.

Section Soundbuf.

(** [sampleType] and [NumSamples] come from syna.h.  The code only copies
    samples, so the sample type stays abstract; [zero_sample] is the value
    static storage is initialised with. *)
Context {sampleType : Type}.
Variable zero_sample : sampleType.
Variable NumSamples : Z.

(** #define RING_SIZE (NumSamples*2) *)
Definition RING_SIZE : Z := NumSamples * 2.

(** #define MIN_NEW_SAMPLES (RING_SIZE/2) *)
Definition MIN_NEW_SAMPLES : Z := RING_SIZE ÷ 2.

(** ** The static variables

    [data] is the visualizer's buffer (declared in syna.h) that
    [getNextFragment] fills. *)
Record state : Type := State {
  ring : list sampleType;      (* static sampleType ring[RING_SIZE] *)
  ring_write : Z;              (* static unsigned int ring_write *)
  signalled : Z;               (* static int signalled *)
  ring_has : Z;                (* static unsigned int ring_has *)
  data : list sampleType       (* sampleType data[] *)
}.

(** Static initialisation: the ring is zero-filled, the scalars are 0. *)
Definition initial (d : list sampleType) : state :=
  {| ring := replicate (Z.to_nat RING_SIZE) zero_sample;
     ring_write := 0; signalled := 0; ring_has := 0; data := d |}.

(** ** Array accesses

    Reading or writing outside an array is undefined behaviour; the model
    makes it an explicit failure, one element at a time. *)

Definition load (a : list sampleType) (i : Z) : option sampleType :=
  if bool_decide (0 ≤ i) then a !! Z.to_nat i else None.

Definition store_at (a : list sampleType) (i : Z) (x : sampleType)
  : option (list sampleType) :=
  if bool_decide (0 ≤ i < Z.of_nat (length a))
  then Some (<[Z.to_nat i := x]> a) else None.

(** The element loop [*(op++) = *(ip++)], [n] times. *)
Fixpoint copy (n : nat) (dst : list sampleType) (op : Z)
    (src : list sampleType) (ip : Z) : option (list sampleType) :=
  match n with
  | O => Some dst
  | S n' =>
      x ← load src ip;
      dst' ← store_at dst op x;
      copy n' dst' (op + 1) src (ip + 1)
  end.

(** [memcpy(dst + op, src + ip, n * sizeof(sampleType))]; source and
    destination are always different arrays here. *)
Definition memcpy (dst : list sampleType) (op : Z) (src : list sampleType)
    (ip : Z) (n : Z) : option (list sampleType) :=
  if bool_decide (0 ≤ n) then copy (Z.to_nat n) dst op src ip else None.

(** ** Outcomes of a call

    A call either runs into undefined behaviour ([Fault]), sleeps on the
    condition variable ([Blocked]), or completes with a result, a new state
    and the number of [SDL_CondSignal] calls it made. *)
Inductive outcome (A : Type) : Type :=
| Fault
| Blocked
| Done (a : A) (s : state) (wakes : nat).
Arguments Fault {A}.
Arguments Blocked {A}.
Arguments Done {A} a s wakes.

Definition M (A : Type) : Type := state → outcome A.

#[local] Instance M_ret : MRet M := λ A a s, Done a s 0.

#[local] Instance M_bind : MBind M := λ A B f m s,
  match m s with
  | Fault => Fault
  | Blocked => Blocked
  | Done a s1 k1 =>
      match f a s1 with
      | Fault => Fault
      | Blocked => Blocked
      | Done b s2 k2 => Done b s2 (k1 + k2)
      end
  end.

Definition get {A : Type} (field : state → A) : M A := λ s, Done (field s) s 0.

Definition set_ring_write (v : Z) : M unit := λ s,
  Done tt {| ring := ring s; ring_write := v; signalled := signalled s;
             ring_has := ring_has s; data := data s |} 0.

Definition set_signalled (v : Z) : M unit := λ s,
  Done tt {| ring := ring s; ring_write := ring_write s; signalled := v;
             ring_has := ring_has s; data := data s |} 0.

Definition set_ring_has (v : Z) : M unit := λ s,
  Done tt {| ring := ring s; ring_write := ring_write s;
             signalled := signalled s; ring_has := v; data := data s |} 0.

(** [memcpy] into the ring from the caller's [input]. *)
Definition memcpy_ring (op : Z) (input : list sampleType) (ip n : Z) : M unit :=
  λ s, match memcpy (ring s) op input ip n with
       | Some r => Done tt {| ring := r; ring_write := ring_write s;
                              signalled := signalled s;
                              ring_has := ring_has s; data := data s |} 0
       | None => Fault
       end.

(** [memcpy] from the ring into [data]. *)
Definition memcpy_data (op ip n : Z) : M unit :=
  λ s, match memcpy (data s) op (ring s) ip n with
       | Some d => Done tt {| ring := ring s; ring_write := ring_write s;
                              signalled := signalled s;
                              ring_has := ring_has s; data := d |} 0
       | None => Fault
       end.

(** The mutex makes each body atomic; taking and releasing it changes no
    variable of the module. *)
Definition sndbuf_lock : M unit := mret tt.
Definition sndbuf_unlock : M unit := mret tt.

(** One wake of the consumer. *)
Definition SDL_CondSignal : M unit := λ s, Done tt s 1%nat.

(** [while (!signalled) SDL_CondWait(cond, mutex);] the loop is left only
    with [signalled] non-zero; until then the caller sleeps, the mutex is
    released and the caller has changed nothing. *)
Definition wait_signalled : M unit := λ s,
  if bool_decide (signalled s = 0) then Blocked else Done tt s 0.

(** ** sndbuf_store *)
Definition sndbuf_store (input : list sampleType) (len : Z) : M unit :=
  sndbuf_lock ;;
  '(ip, op, remain) ←
    (if bool_decide (to_unsigned RING_SIZE ≤ len) then
       (* too many samples: fill the buffer with the latest ones *)
       set_ring_write 0 ;;
       mret (len - RING_SIZE, 0, to_unsigned RING_SIZE)
     else
       w ← get ring_write;
       let remain := to_unsigned (RING_SIZE - w) in
       '(remain, new_ring_write) ←
         (if bool_decide (len < remain) then
            mret (len, to_int (to_unsigned (w + len)))
          else if bool_decide (remain = len) then
            mret (remain, 0)
          else
            (* part of the store after wrapping around the ring *)
            let new_ring_write := to_int (to_unsigned (len - remain)) in
            memcpy_ring 0 input remain new_ring_write ;;
            mret (remain, new_ring_write));
       set_ring_write (to_unsigned new_ring_write) ;;
       mret (0, w, remain));
  (* part of the store before the wrapping point, maybe the whole store *)
  memcpy_ring op input ip remain ;;
  h ← get ring_has;
  set_ring_has (to_unsigned (h + len)) ;;
  h ← get ring_has;
  g ← get signalled;
  (if bool_decide (to_unsigned MIN_NEW_SAMPLES ≤ h) && bool_decide (g = 0) then
     set_signalled 1 ;;
     SDL_CondSignal
   else mret tt) ;;
  sndbuf_unlock.

(** ** getNextFragment *)
Definition getNextFragment : M Z :=
  sndbuf_lock ;;
  wait_signalled ;;
  set_signalled 0 ;;
  w ← get ring_write;
  (* first part, up to the wrapping point *)
  let chunk1 := to_unsigned (RING_SIZE - w) in
  memcpy_data 0 w chunk1 ;;
  (if bool_decide (0 < w) then
     (* wrapped around the ring: the second part *)
     memcpy_data chunk1 0 w
   else mret tt) ;;
  ring_had ← get ring_has;
  set_ring_has 0 ;;
  sndbuf_unlock ;;
  mret (to_int ring_had).

(** The fragment handed to the visualizer: the first [RING_SIZE] samples
    of [data]. *)
Definition fragment (s : state) : list sampleType :=
  take (Z.to_nat RING_SIZE) (data s).

(** ** Runs of calls

    The producer and the consumer interleave whole calls.  A run is a list
    of calls executed in order; a drain stands at the point where it leaves
    its wait loop, so a run in which a drain would still have to wait is
    [Blocked].  The log of a run records, for every store, the value of
    [ring_has] it left and, for every drain, the count and the fragment
    the visualizer got. *)
Inductive call : Type :=
| Store (input : list sampleType) (len : Z)
| Take.

Inductive event : Type :=
| Stored (input : list sampleType) (len : Z) (pending : Z)
| Taken (count : Z) (frag : list sampleType).

Definition do_call (c : call) : M event :=
  match c with
  | Store input len =>
      sndbuf_store input len ;;
      h ← get ring_has;
      mret (Stored input len h)
  | Take =>
      count ← getNextFragment;
      f ← get fragment;
      mret (Taken count f)
  end.

Fixpoint run (cs : list call) : M (list event) :=
  match cs with
  | [] => mret []
  | c :: cs' =>
      e ← do_call c;
      es ← run cs';
      mret (e :: es)
  end.

(** * Vocabulary of the properties *)

(** ** What a block copy leaves behind

    [blit dst op src ip n] is [dst] with the [n] elements of [src] from
    [ip] laid over positions [op .. op+n-1]. *)
Definition blit (dst : list sampleType) (op : nat) (src : list sampleType)
    (ip n : nat) : list sampleType :=
  take op dst ++ take n (drop ip src) ++ drop (op + n) dst.

(** The ring has its declared size, [data] (declared in syna.h) has room
    for a fragment, the write cursor is an index of the ring and
    [ring_has] is an [unsigned int]. *)
Definition wf (s : state) : Prop :=
  length (ring s) = Z.to_nat RING_SIZE ∧
  0 ≤ ring_write s < RING_SIZE ∧
  (Z.to_nat RING_SIZE ≤ length (data s))%nat ∧
  0 ≤ ring_has s < UINT_MOD.

(** A batch the caller may pass: [len] is an [unsigned int] and [input]
    holds at least [len] samples. *)
Definition batch_ok (input : list sampleType) (len : Z) : Prop :=
  0 ≤ len < UINT_MOD ∧ len ≤ Z.of_nat (length input).

(** ** The two calls in closed form

    What [sndbuf_store] leaves in the ring: the overrun case, the case
    where the batch fits before the end of the ring, and the wrapped
    case. *)
Definition ring_after (input : list sampleType) (len : Z) (s : state)
  : list sampleType :=
  let w := ring_write s in
  if bool_decide (RING_SIZE ≤ len) then
    blit (ring s) 0 input (Z.to_nat (len - RING_SIZE)) (Z.to_nat RING_SIZE)
  else if bool_decide (w + len ≤ RING_SIZE) then
    blit (ring s) (Z.to_nat w) input 0 (Z.to_nat len)
  else
    blit (blit (ring s) 0 input (Z.to_nat (RING_SIZE - w))
               (Z.to_nat (len - (RING_SIZE - w))))
         (Z.to_nat w) input 0 (Z.to_nat (RING_SIZE - w)).

(** The write cursor [sndbuf_store] leaves. *)
Definition cursor_after (len : Z) (s : state) : Z :=
  if bool_decide (RING_SIZE ≤ len) then 0
  else (ring_write s + len) mod RING_SIZE.

(** Whether the call signals the condition variable. *)
Definition wakes_consumer (len : Z) (s : state) : bool :=
  bool_decide (MIN_NEW_SAMPLES ≤ to_unsigned (ring_has s + len))
  && bool_decide (signalled s = 0).

(** The state [sndbuf_store] leaves ([sndbuf_store_eq] below). *)
Definition after_store (input : list sampleType) (len : Z) (s : state)
  : state :=
  {| ring := ring_after input len s;
     ring_write := cursor_after len s;
     signalled := if wakes_consumer len s then 1 else signalled s;
     ring_has := to_unsigned (ring_has s + len);
     data := data s |}.

(** The ring read from the write cursor round to the slot before it. *)
Definition ring_in_order (s : state) : list sampleType :=
  drop (Z.to_nat (ring_write s)) (ring s)
  ++ take (Z.to_nat (ring_write s)) (ring s).

(** What [getNextFragment] leaves in [data]. *)
Definition data_after (s : state) : list sampleType :=
  let w := Z.to_nat (ring_write s) in
  let chunk1 := Z.to_nat (RING_SIZE - ring_write s) in
  let d1 := blit (data s) 0 (ring s) w chunk1 in
  if bool_decide (0 < ring_write s) then blit d1 chunk1 (ring s) 0 w else d1.

(** The state [getNextFragment] leaves ([getNextFragment_eq] below). *)
Definition after_drain (s : state) : state :=
  {| ring := ring s; ring_write := ring_write s; signalled := 0;
     ring_has := 0; data := data_after s |}.

(** The last [n] elements of a list (all of it when it is shorter). *)
Definition last_samples (n : nat) (l : list sampleType) : list sampleType :=
  drop (length l - n) l.

(** ** Runs
    What the caller owes a call. *)
Definition call_ok (c : call) : Prop :=
  match c with
  | Store input len => batch_ok input len
  | Take => True
  end.

(** Producer calls. *)
Definition is_store (c : call) : bool :=
  match c with Store _ _ => true | Take => false end.

(** The samples a run stores, in call order. *)
Fixpoint stored_samples (cs : list call) : list sampleType :=
  match cs with
  | [] => []
  | Store input len :: cs' => take (Z.to_nat len) input ++ stored_samples cs'
  | Take :: cs' => stored_samples cs'
  end.

(** The exact number of samples stored since the last drain of a run that
    starts with [h] pending. *)
Definition pending_step (h : Z) (c : call) : Z :=
  match c with
  | Store _ len => h + len
  | Take => 0
  end.

Definition pending_len (h : Z) (cs : list call) : Z := foldl pending_step h cs.

(** Whether [ring_has] has been at or above the threshold after some store
    since the last drain. *)
Definition crossed_step (g : bool) (e : event) : bool :=
  match e with
  | Stored _ _ pending => g || bool_decide (MIN_NEW_SAMPLES ≤ pending)
  | Taken _ _ => false
  end.

Definition crossed (g : bool) (es : list event) : bool := foldl crossed_step g es.

(** The state a call leaves. *)
Definition after_call (c : call) (s : state) : state :=
  match c with
  | Store input len => after_store input len s
  | Take => after_drain s
  end.

(** The log entry of a call. *)
Definition event_of (c : call) (s : state) : event :=
  match c with
  | Store input len => Stored input len (to_unsigned (ring_has s + len))
  | Take => Taken (to_int (ring_has s)) (ring_in_order s)
  end.

(** The number of times a call signals the condition variable. *)
Definition wakes_of (c : call) (s : state) : nat :=
  match c with
  | Store input len => if wakes_consumer len s then 1 else 0
  | Take => 0
  end.

(** Whether a call has to wait in the state it finds. *)
Definition blocks (c : call) (s : state) : bool :=
  match c with
  | Store _ _ => false
  | Take => bool_decide (signalled s = 0)
  end.

(** [signalled] is 0 or 1, and while it is 0 fewer than the threshold are
    pending. *)
Definition ready_inv (s : state) : Prop :=
  (signalled s = 0 ∨ signalled s = 1) ∧
  (signalled s = 0 → ring_has s < MIN_NEW_SAMPLES).

(** The number of consumer calls in a run. *)
Fixpoint drains (cs : list call) : nat :=
  match cs with
  | [] => 0
  | Store _ _ :: cs' => drains cs'
  | Take :: cs' => S (drains cs')
  end.

(** The number of wakes issued and not yet consumed by a drain. *)
Definition unconsumed (s : state) : nat :=
  if bool_decide (signalled s = 0) then 0%nat else 1%nat.

(** A run of stores that keeps the pending count at or above the
    threshold: started with [h] pending, every store leaves the wrapped
    sum [(h + len) mod 2^32] at [MIN_NEW_SAMPLES] or more. *)
Fixpoint stays_above (h : Z) (cs : list call) : Prop :=
  match cs with
  | [] => True
  | Store _ len :: cs' =>
      MIN_NEW_SAMPLES ≤ to_unsigned (h + len) ∧
      stays_above (to_unsigned (h + len)) cs'
  | Take :: cs' => False
  end.

(** * Proofs *)

(** ** Integer conversions on values in range *)

Lemma to_unsigned_small x : 0 ≤ x < UINT_MOD → to_unsigned x = x.
Proof. intros H. unfold to_unsigned. by apply Z.mod_small. Qed.

Lemma to_int_small x : 0 ≤ x ≤ INT_MAX → to_int x = x.
Proof.
  unfold to_int, INT_MAX, UINT_MOD. intros H.
  rewrite Z.mod_small; lia.
Qed.

Lemma to_unsigned_range x : 0 ≤ to_unsigned x < UINT_MOD.
Proof. unfold to_unsigned, UINT_MOD. apply Z.mod_pos_bound. lia. Qed.

Lemma length_blit dst op src ip n :
  (op + n ≤ length dst)%nat → (ip + n ≤ length src)%nat →
  length (blit dst op src ip n) = length dst.
Proof.
  intros Hd Hs. unfold blit.
  rewrite !length_app, !length_take, !length_drop. lia.
Qed.

Lemma lookup_blit dst op src ip n i :
  (op + n ≤ length dst)%nat → (ip + n ≤ length src)%nat →
  blit dst op src ip n !! i =
    if bool_decide (op ≤ i < op + n)%nat then src !! (ip + (i - op))%nat
    else dst !! i.
Proof.
  intros Hd Hs. unfold blit.
  destruct (decide (i < op)%nat) as [Hlt|Hge].
  - rewrite lookup_app_l by (rewrite length_take; lia).
    rewrite lookup_take_lt by lia.
    rewrite bool_decide_eq_false_2 by lia. done.
  - rewrite lookup_app_r by (rewrite length_take; lia).
    rewrite length_take, Nat.min_l by lia.
    destruct (decide (i < op + n)%nat) as [Hin|Hout].
    + rewrite lookup_app_l by (rewrite length_take, length_drop; lia).
      rewrite lookup_take_lt by lia.
      rewrite lookup_drop.
      rewrite bool_decide_eq_true_2 by lia. done.
    + rewrite lookup_app_r by (rewrite length_take, length_drop; lia).
      rewrite length_take, length_drop, Nat.min_l by lia.
      rewrite lookup_drop.
      rewrite bool_decide_eq_false_2 by lia.
      f_equal. lia.
Qed.

Lemma copy_blit n : ∀ dst op src ip,
  0 ≤ op → 0 ≤ ip →
  op + Z.of_nat n ≤ Z.of_nat (length dst) →
  ip + Z.of_nat n ≤ Z.of_nat (length src) →
  copy n dst op src ip = Some (blit dst (Z.to_nat op) src (Z.to_nat ip) n).
Proof.
  induction n as [|n IH]; intros dst op src ip Hop Hip Hd Hs.
  - simpl. f_equal. unfold blit. simpl.
    rewrite Nat.add_0_r. by rewrite take_drop.
  - simpl. unfold load, store_at.
    rewrite bool_decide_eq_true_2 by lia.
    destruct (lookup_lt_is_Some_2 src (Z.to_nat ip)) as [x Hx]; [lia|].
    rewrite Hx. simpl.
    rewrite bool_decide_eq_true_2 by lia. simpl.
    rewrite IH by (rewrite ?length_insert; lia).
    f_equal. apply list_eq. intros i.
    rewrite !lookup_blit by (rewrite ?length_insert; lia).
    replace (Z.to_nat (op + 1)) with (S (Z.to_nat op)) by lia.
    replace (Z.to_nat (ip + 1)) with (S (Z.to_nat ip)) by lia.
    destruct (decide (i = Z.to_nat op)) as [->|Hne].
    + rewrite bool_decide_eq_false_2 by lia.
      rewrite bool_decide_eq_true_2 by lia.
      rewrite list_lookup_insert_eq by lia.
      rewrite Nat.sub_diag, Nat.add_0_r. done.
    + rewrite list_lookup_insert_ne by lia.
      repeat case_bool_decide; try lia; try done.
      f_equal. lia.
Qed.

(** A copy that stays inside both arrays succeeds. *)
Lemma memcpy_blit dst op src ip n :
  0 ≤ op → 0 ≤ ip → 0 ≤ n →
  op + n ≤ Z.of_nat (length dst) → ip + n ≤ Z.of_nat (length src) →
  memcpy dst op src ip n
  = Some (blit dst (Z.to_nat op) src (Z.to_nat ip) (Z.to_nat n)).
Proof.
  intros Hop Hip Hn Hd Hs. unfold memcpy.
  rewrite bool_decide_eq_true_2 by done.
  apply copy_blit; lia.
Qed.

(** A copy that leaves either array fails: every element access of a
    successful copy is in bounds. *)
Lemma copy_in_bounds n : ∀ dst op src ip dst',
  copy n dst op src ip = Some dst' → n ≠ 0%nat →
  0 ≤ op ∧ op + Z.of_nat n ≤ Z.of_nat (length dst) ∧
  0 ≤ ip ∧ ip + Z.of_nat n ≤ Z.of_nat (length src).
Proof.
  induction n as [|n IH]; intros dst op src ip dst' Hc Hn; [done|].
  cbn [copy] in Hc. unfold load, store_at in Hc.
  destruct (bool_decide_reflect (0 ≤ ip)) as [Hip|Hip]; [|discriminate Hc].
  destruct (src !! Z.to_nat ip) as [x|] eqn:Hx; [|discriminate Hc].
  destruct (bool_decide_reflect (0 ≤ op < Z.of_nat (length dst))) as [Hop|Hop];
    [|discriminate Hc].
  cbn in Hc.
  apply lookup_lt_Some in Hx.
  destruct n as [|n].
  - lia.
  - apply IH in Hc; [|done]. rewrite length_insert in Hc. lia.
Qed.

(** ** Standing assumptions

    [NumSamples] is a positive [int] constant and [NumSamples*2] does not
    overflow [int]. *)
Hypothesis NumSamples_pos : 0 < NumSamples.
Hypothesis RING_SIZE_int : RING_SIZE ≤ INT_MAX.

Lemma RING_SIZE_pos : 0 < RING_SIZE.
Proof. unfold RING_SIZE. lia. Qed.

Lemma RING_SIZE_unsigned : to_unsigned RING_SIZE = RING_SIZE.
Proof.
  apply to_unsigned_small. pose proof RING_SIZE_pos.
  unfold INT_MAX, UINT_MOD in *. lia.
Qed.

Lemma MIN_NEW_SAMPLES_eq : MIN_NEW_SAMPLES = NumSamples.
Proof. unfold MIN_NEW_SAMPLES, RING_SIZE. apply Z.quot_mul. lia. Qed.

Lemma MIN_NEW_SAMPLES_unsigned : to_unsigned MIN_NEW_SAMPLES = MIN_NEW_SAMPLES.
Proof.
  rewrite MIN_NEW_SAMPLES_eq. apply to_unsigned_small.
  unfold RING_SIZE, INT_MAX, UINT_MOD in *. lia.
Qed.

(** ** sndbuf_store in closed form *)

Ltac run_M :=
  unfold sndbuf_lock, sndbuf_unlock, SDL_CondSignal, memcpy_ring,
    memcpy_data, wait_signalled, get, set_ring_write, set_signalled,
    set_ring_has, mbind, M_bind, mret, M_ret;
  cbn [ring ring_write signalled ring_has data].

Lemma mod_once a c : c ≤ a < 2 * c → a mod c = a - c.
Proof.
  intros H. replace a with ((a - c) + 1 * c) at 1 by lia.
  rewrite Z.mod_add by lia. apply Z.mod_small. lia.
Qed.

Lemma sndbuf_store_eq input len s :
  wf s → batch_ok input len →
  sndbuf_store input len s
  = Done tt (after_store input len s)
      (if wakes_consumer len s then 1%nat else 0%nat).
Proof.
  intros (Hring & Hw & Hdata & Hhas) [Hlen Hin].
  pose proof RING_SIZE_pos as HC.
  assert (HCmax : RING_SIZE ≤ INT_MAX) by exact RING_SIZE_int.
  unfold sndbuf_store, after_store, ring_after, cursor_after, wakes_consumer.
  rewrite RING_SIZE_unsigned, MIN_NEW_SAMPLES_unsigned.
  unfold INT_MAX, UINT_MOD in *.
  destruct (bool_decide_reflect (RING_SIZE ≤ len)) as [Hover|Hnorm].
  - run_M.
    rewrite memcpy_blit by lia.
    cbn [ring ring_write signalled ring_has data].
    destruct (bool_decide (MIN_NEW_SAMPLES ≤ to_unsigned (ring_has s + len))
              && bool_decide (signalled s = 0)); reflexivity.
  - apply Z.nle_gt in Hnorm.
    run_M.
    rewrite (to_unsigned_small (RING_SIZE - ring_write s))
      by (unfold UINT_MOD; lia).
    destruct (bool_decide_reflect (len < RING_SIZE - ring_write s)) as [Hfit|Hnofit].
    + cbn [ring ring_write signalled ring_has data].
      rewrite (to_unsigned_small (ring_write s + len)) by (unfold UINT_MOD; lia).
      rewrite (to_int_small (ring_write s + len)) by (unfold INT_MAX; lia).
      rewrite (to_unsigned_small (ring_write s + len)) by (unfold UINT_MOD; lia).
      rewrite (bool_decide_eq_true_2 (ring_write s + len ≤ RING_SIZE)) by lia.
      rewrite (Z.mod_small (ring_write s + len)) by lia.
      rewrite memcpy_blit by lia.
      cbn [ring ring_write signalled ring_has data].
      destruct (bool_decide (MIN_NEW_SAMPLES ≤ to_unsigned (ring_has s + len))
                && bool_decide (signalled s = 0)); reflexivity.
    + destruct (bool_decide_reflect (RING_SIZE - ring_write s = len)) as [Hexact|Hwrap].
      * cbn [ring ring_write signalled ring_has data].
        rewrite (bool_decide_eq_true_2 (ring_write s + len ≤ RING_SIZE)) by lia.
        replace (ring_write s + len) with RING_SIZE by lia.
        rewrite Z.mod_same by lia.
        rewrite (to_unsigned_small 0) by (unfold UINT_MOD; lia).
        rewrite memcpy_blit by lia.
        cbn [ring ring_write signalled ring_has data].
        rewrite Hexact.
        destruct (bool_decide (MIN_NEW_SAMPLES ≤ to_unsigned (ring_has s + len))
                  && bool_decide (signalled s = 0)); reflexivity.
      * cbn [ring ring_write signalled ring_has data].
        rewrite (bool_decide_eq_false_2 (ring_write s + len ≤ RING_SIZE)) by lia.
        rewrite mod_once by lia.
        rewrite (to_unsigned_small (len - (RING_SIZE - ring_write s)))
          by (unfold UINT_MOD; lia).
        rewrite (to_int_small (len - (RING_SIZE - ring_write s)))
          by (unfold INT_MAX; lia).
        rewrite memcpy_blit by lia.
        cbn [ring ring_write signalled ring_has data].
        rewrite (to_unsigned_small (len - (RING_SIZE - ring_write s)))
          by (unfold UINT_MOD; lia).
        rewrite memcpy_blit by (rewrite ?length_blit; lia).
        cbn [ring ring_write signalled ring_has data].
        replace (ring_write s + len - RING_SIZE)
          with (len - (RING_SIZE - ring_write s)) by lia.
        destruct (bool_decide (MIN_NEW_SAMPLES ≤ to_unsigned (ring_has s + len))
                  && bool_decide (signalled s = 0)); reflexivity.
Qed.

(** ** getNextFragment in closed form *)

Lemma getNextFragment_eq s :
  wf s →
  getNextFragment s
  = if bool_decide (signalled s = 0) then Blocked
    else Done (to_int (ring_has s)) (after_drain s) 0.
Proof.
  intros (Hring & Hw & Hdata & Hhas).
  pose proof RING_SIZE_pos as HC.
  assert (HCmax : RING_SIZE ≤ INT_MAX) by exact RING_SIZE_int.
  unfold INT_MAX in HCmax.
  unfold getNextFragment, after_drain, data_after.
  run_M.
  destruct (bool_decide_reflect (signalled s = 0)) as [Hs|Hs]; [reflexivity|].
  rewrite (to_unsigned_small (RING_SIZE - ring_write s))
    by (unfold UINT_MOD; lia).
  rewrite memcpy_blit by lia.
  cbn [ring ring_write signalled ring_has data].
  change (Z.to_nat 0) with 0%nat.
  destruct (bool_decide_reflect (0 < ring_write s)) as [Hpos|Hzero];
    cbn [ring ring_write signalled ring_has data].
  - rewrite memcpy_blit by (rewrite ?length_blit; lia).
    change (Z.to_nat 0) with 0%nat.
    reflexivity.
  - reflexivity.
Qed.

Lemma length_ring_in_order s :
  wf s → length (ring_in_order s) = Z.to_nat RING_SIZE.
Proof.
  intros (Hring & Hw & _). unfold ring_in_order.
  rewrite length_app, length_drop, length_take. lia.
Qed.

(** What the visualizer receives is the ring in order. *)
Lemma fragment_after_drain s :
  wf s → fragment (after_drain s) = ring_in_order s.
Proof.
  intros (Hring & Hw & Hdata & Hhas).
  pose proof RING_SIZE_pos as HC.
  unfold fragment, after_drain, data_after, ring_in_order.
  cbn [data].
  apply list_eq. intros i.
  rewrite lookup_take.
  destruct (decide (i < Z.to_nat RING_SIZE)%nat) as [Hi|Hi].
  - destruct (bool_decide_reflect (0 < ring_write s)) as [Hpos|Hzero].
    + rewrite !lookup_blit by (rewrite ?length_blit; lia).
      destruct (decide (i < Z.to_nat (RING_SIZE - ring_write s))%nat) as [H1|H1].
      * rewrite bool_decide_eq_false_2 by lia.
        rewrite bool_decide_eq_true_2 by lia.
        rewrite lookup_app_l by (rewrite length_drop; lia).
        rewrite lookup_drop. f_equal. lia.
      * rewrite bool_decide_eq_true_2 by lia.
        rewrite lookup_app_r by (rewrite length_drop; lia).
        rewrite length_drop.
        rewrite lookup_take_lt by lia.
        f_equal. lia.
    + assert (ring_write s = 0) as -> by lia.
      rewrite lookup_blit by lia.
      rewrite bool_decide_eq_true_2 by lia.
      simpl. rewrite app_nil_r. f_equal. lia.
  - symmetry. apply lookup_ge_None.
    rewrite length_app, length_drop, length_take. lia.
Qed.

(** Position [k] of the ring in order is slot [(ring_write + k) mod
    RING_SIZE]. *)
Lemma lookup_ring_in_order s k :
  wf s → 0 ≤ k < RING_SIZE →
  ring_in_order s !! Z.to_nat k
  = ring s !! Z.to_nat ((ring_write s + k) mod RING_SIZE).
Proof.
  intros (Hring & Hw & _) Hk. unfold ring_in_order.
  destruct (decide (ring_write s + k < RING_SIZE)) as [Hlt|Hge].
  - rewrite Z.mod_small by lia.
    rewrite lookup_app_l by (rewrite length_drop; lia).
    rewrite lookup_drop. f_equal. lia.
  - rewrite mod_once by lia.
    rewrite lookup_app_r by (rewrite length_drop; lia).
    rewrite length_drop, lookup_take_lt by lia.
    f_equal. lia.
Qed.

(** ** The ring after a store, slot by slot *)

Lemma mod_below a c : - c ≤ a < 0 → a mod c = a + c.
Proof.
  intros H. replace a with ((a + c) + (-1) * c) at 1 by lia.
  rewrite Z.mod_add by lia. apply Z.mod_small. lia.
Qed.

Lemma wf_after_store input len s :
  wf s → batch_ok input len → wf (after_store input len s).
Proof.
  intros (Hring & Hw & Hdata & Hhas) [Hlen Hin].
  pose proof RING_SIZE_pos as HC.
  unfold wf, after_store, ring_after, cursor_after.
  cbn [ring ring_write data ring_has].
  split; [|split; [|split; [done|]]].
  - repeat case_bool_decide; rewrite ?length_blit; rewrite ?length_blit; lia.
  - case_bool_decide; [lia|]. apply Z.mod_pos_bound. lia.
  - apply to_unsigned_range.
Qed.

Lemma wf_after_drain s : wf s → wf (after_drain s).
Proof.
  intros (Hring & Hw & Hdata & Hhas).
  unfold wf, after_drain, data_after. cbn [ring ring_write data ring_has].
  split; [done|]. split; [done|]. split; [|unfold UINT_MOD; lia].
  case_bool_decide; rewrite ?length_blit; rewrite ?length_blit; lia.
Qed.

(** Overrun: slot [i] receives [input[len - RING_SIZE + i]]. *)
Lemma lookup_ring_after_overrun input len s i :
  wf s → batch_ok input len → RING_SIZE ≤ len → 0 ≤ i < RING_SIZE →
  ring_after input len s !! Z.to_nat i
  = input !! Z.to_nat (len - RING_SIZE + i).
Proof.
  intros (Hring & Hw & _) [Hlen Hin] Hover Hi.
  unfold ring_after. rewrite bool_decide_eq_true_2 by done.
  rewrite lookup_blit by lia.
  rewrite bool_decide_eq_true_2 by lia.
  f_equal. lia.
Qed.

(** Normal case: slot [i] is written exactly when its distance
    [(i - ring_write) mod RING_SIZE] from the cursor is below [len], and
    then receives the input sample at that distance. *)
Lemma lookup_ring_after_normal input len s i :
  wf s → batch_ok input len → len < RING_SIZE → 0 ≤ i < RING_SIZE →
  ring_after input len s !! Z.to_nat i
  = if bool_decide ((i - ring_write s) mod RING_SIZE < len)
    then input !! Z.to_nat ((i - ring_write s) mod RING_SIZE)
    else ring s !! Z.to_nat i.
Proof.
  intros (Hring & Hw & _) [Hlen Hin] Hnorm Hi.
  unfold ring_after. rewrite bool_decide_eq_false_2 by lia.
  destruct (decide (ring_write s ≤ i)) as [Hge|Hlt].
  - rewrite (Z.mod_small (i - ring_write s)) by lia.
    destruct (bool_decide_reflect (ring_write s + len ≤ RING_SIZE)) as [Hfit|Hwrap].
    + rewrite lookup_blit by lia.
      destruct (decide (i < ring_write s + len)).
      * rewrite !bool_decide_eq_true_2 by lia. f_equal. lia.
      * rewrite !bool_decide_eq_false_2 by lia. done.
    + rewrite lookup_blit by (rewrite ?length_blit; lia).
      rewrite !bool_decide_eq_true_2 by lia. f_equal. lia.
  - rewrite (mod_below (i - ring_write s)) by lia.
    destruct (bool_decide_reflect (ring_write s + len ≤ RING_SIZE)) as [Hfit|Hwrap].
    + rewrite lookup_blit by lia.
      rewrite !bool_decide_eq_false_2 by lia. done.
    + rewrite !lookup_blit by (rewrite ?length_blit; lia).
      rewrite (bool_decide_eq_false_2 (_ ≤ _ < _)%nat) by lia.
      destruct (decide (i < len - (RING_SIZE - ring_write s))).
      * rewrite !bool_decide_eq_true_2 by lia. f_equal. lia.
      * rewrite !bool_decide_eq_false_2 by lia. done.
Qed.

(** ** The ring as the tail of the sample stream *)

Lemma length_last_samples n l :
  (n ≤ length l)%nat → length (last_samples n l) = n.
Proof. intros H. unfold last_samples. rewrite length_drop. lia. Qed.

Lemma last_samples_app_long n a b :
  (n ≤ length b)%nat → last_samples n (a ++ b) = last_samples n b.
Proof.
  intros H. unfold last_samples. rewrite length_app.
  replace (length a + length b - n)%nat
    with (length a + (length b - n))%nat by lia.
  by rewrite drop_app_add.
Qed.

Lemma last_samples_app_idemp n a b :
  (n ≤ length a)%nat →
  last_samples n (last_samples n a ++ b) = last_samples n (a ++ b).
Proof.
  intros H. unfold last_samples at 1 3.
  rewrite !length_app, length_last_samples by done.
  unfold last_samples.
  destruct (decide (length b ≤ n)%nat) as [Hb|Hb].
  - rewrite !drop_app_le by (rewrite ?length_drop; lia).
    rewrite drop_drop. do 2 f_equal. lia.
  - rewrite !drop_app_ge by (rewrite ?length_drop; lia).
    rewrite length_drop. f_equal. lia.
Qed.

Lemma last_samples_all n l : (length l ≤ n)%nat → last_samples n l = l.
Proof.
  intros H. unfold last_samples.
  replace (length l - n)%nat with 0%nat by lia. done.
Qed.

(** A store shifts the batch into the ordered ring: the ring in order
    afterwards is the last [RING_SIZE] samples of the ring in order before
    followed by the batch. *)
Lemma ring_in_order_after_store input len s :
  wf s → batch_ok input len →
  ring_in_order (after_store input len s)
  = last_samples (Z.to_nat RING_SIZE)
      (ring_in_order s ++ take (Z.to_nat len) input).
Proof.
  intros Hwf Hb.
  pose proof (wf_after_store input len s Hwf Hb) as Hwf'.
  pose proof RING_SIZE_pos as HC.
  pose proof (length_ring_in_order s Hwf) as Hlin.
  destruct Hb as [Hlen Hin].
  assert (Hbatch : length (take (Z.to_nat len) input) = Z.to_nat len)
    by (rewrite length_take; lia).
  apply list_eq. intros n.
  destruct (decide (n < Z.to_nat RING_SIZE)%nat) as [Hn|Hn].
  2:{ rewrite !(proj2 (lookup_ge_None _ _)); [done| |].
      - rewrite length_last_samples; rewrite ?length_app; lia.
      - rewrite length_ring_in_order by done. lia. }
  unfold last_samples. rewrite lookup_drop, length_app, Hlin, Hbatch.
  replace n with (Z.to_nat (Z.of_nat n)) at 1 by lia.
  rewrite lookup_ring_in_order by (done || lia).
  set (k := Z.of_nat n). assert (Hk : 0 ≤ k < RING_SIZE) by lia.
  replace (Z.to_nat RING_SIZE + Z.to_nat len - Z.to_nat RING_SIZE + n)%nat
    with (Z.to_nat (len + k)) by lia.
  cbn [after_store ring ring_write].
  destruct (decide (RING_SIZE ≤ len)) as [Hover|Hnorm].
  - unfold cursor_after. rewrite bool_decide_eq_true_2 by done.
    rewrite Z.add_0_l, Z.mod_small by lia.
    rewrite lookup_ring_after_overrun by (done || lia).
    rewrite lookup_app_r by lia.
    rewrite Hlin, lookup_take_lt by lia.
    f_equal. lia.
  - unfold cursor_after. rewrite bool_decide_eq_false_2 by done.
    destruct Hwf as (Hring & Hw & Hdata & Hhas).
    rewrite Zplus_mod_idemp_l.
    rewrite lookup_ring_after_normal;
      [|done|done|lia|apply Z.mod_pos_bound; lia].
    rewrite Zminus_mod_idemp_l.
    replace (ring_write s + len + k - ring_write s) with (len + k) by lia.
    destruct (decide (len + k < RING_SIZE)) as [Hold|Hnew].
    + rewrite (Z.mod_small (len + k)) by lia.
      rewrite bool_decide_eq_false_2 by lia.
      rewrite lookup_app_l by lia.
      rewrite lookup_ring_in_order by (done || lia).
      do 3 f_equal. lia.
    + rewrite (mod_once (len + k)) by lia.
      rewrite bool_decide_eq_true_2 by lia.
      rewrite lookup_app_r by lia.
      rewrite Hlin, lookup_take_lt by lia.
      f_equal. lia.
Qed.

Lemma do_call_eq c s :
  wf s → call_ok c →
  do_call c s
  = if blocks c s then Blocked
    else Done (event_of c s) (after_call c s) (wakes_of c s).
Proof.
  intros Hwf Hok. destruct c as [input len|]; unfold do_call.
  - unfold mbind, M_bind. rewrite sndbuf_store_eq by done.
    unfold get, mret, M_ret. cbn [blocks event_of after_call wakes_of].
    cbn [after_store ring_has]. do 2 f_equal. lia.
  - unfold mbind, M_bind. rewrite getNextFragment_eq by done.
    cbn [blocks event_of after_call wakes_of].
    case_bool_decide; [done|].
    unfold get, mret, M_ret.
    rewrite fragment_after_drain by done. done.
Qed.

Lemma wf_after_call c s : wf s → call_ok c → wf (after_call c s).
Proof.
  intros Hwf Hok. destruct c; [by apply wf_after_store|by apply wf_after_drain].
Qed.

(** One step of a run. *)
Lemma run_cons c cs s :
  wf s → call_ok c →
  run (c :: cs) s
  = if blocks c s then Blocked
    else match run cs (after_call c s) with
         | Fault => Fault
         | Blocked => Blocked
         | Done es s' k => Done (event_of c s :: es) s' (wakes_of c s + k)
         end.
Proof.
  intros Hwf Hok. cbn [run]. unfold mbind at 1. unfold M_bind at 1.
  rewrite do_call_eq by done.
  destruct (blocks c s); [done|].
  unfold mbind, M_bind, mret, M_ret.
  destruct (run cs (after_call c s)) as [| |es s' k]; [done|done|].
  do 2 f_equal. lia.
Qed.

Lemma run_cons_inv c cs s es s' k :
  wf s → call_ok c → run (c :: cs) s = Done es s' k →
  blocks c s = false ∧
  ∃ es' k', run cs (after_call c s) = Done es' s' k' ∧
            es = event_of c s :: es' ∧ k = (wakes_of c s + k')%nat.
Proof.
  intros Hwf Hok Hrun. rewrite run_cons in Hrun by done.
  destruct (blocks c s); [discriminate|]. split; [done|].
  destruct (run cs (after_call c s)) as [| |es' s'' k'];
    [discriminate|discriminate|].
  injection Hrun as <- <- <-. eauto.
Qed.

(** A run never reaches undefined behaviour. *)
Lemma run_no_fault cs : ∀ s,
  wf s → Forall call_ok cs → run cs s ≠ Fault.
Proof.
  induction cs as [|c cs IH]; intros s Hwf Hok; [done|].
  apply Forall_cons in Hok as [Hc Hcs].
  rewrite run_cons by done.
  destruct (blocks c s); [done|].
  specialize (IH (after_call c s) (wf_after_call _ _ Hwf Hc) Hcs).
  destruct (run cs (after_call c s)); done.
Qed.

(** A run of stores always completes. *)
Lemma run_stores_done cs : ∀ s,
  wf s → Forall call_ok cs → forallb is_store cs = true →
  ∃ es s' k, run cs s = Done es s' k.
Proof.
  induction cs as [|c cs IH]; intros s Hwf Hok Hst.
  - by exists [], s, 0%nat.
  - apply Forall_cons in Hok as [Hc Hcs].
    cbn [forallb] in Hst. apply andb_prop in Hst as [Hc' Hst].
    rewrite run_cons by done.
    destruct c as [input len|]; [|done]. cbn [blocks].
    destruct (IH (after_call (Store input len) s)) as (es & s' & k & ->);
      [by apply wf_after_call|done|done|]. eauto.
Qed.

Lemma run_wf cs : ∀ s es s' k,
  wf s → Forall call_ok cs → run cs s = Done es s' k → wf s'.
Proof.
  induction cs as [|c cs IH]; intros s es s' k Hwf Hok Hrun.
  - injection Hrun as <- <- <-. done.
  - apply Forall_cons in Hok as [Hc Hcs].
    apply run_cons_inv in Hrun as (_ & es' & k' & Hrun & _ & _); [|done..].
    eapply IH; [|done|done]. by apply wf_after_call.
Qed.

(** The ring in order is always the tail of what it held followed by
    everything stored since. *)
Lemma run_ring_in_order cs : ∀ s es s' k,
  wf s → Forall call_ok cs → run cs s = Done es s' k →
  ring_in_order s'
  = last_samples (Z.to_nat RING_SIZE) (ring_in_order s ++ stored_samples cs).
Proof.
  induction cs as [|c cs IH]; intros s es s' k Hwf Hok Hrun.
  - injection Hrun as <- <- <-. cbn [stored_samples].
    rewrite app_nil_r, last_samples_all; [done|].
    by rewrite length_ring_in_order.
  - apply Forall_cons in Hok as [Hc Hcs].
    apply run_cons_inv in Hrun as (_ & es' & k' & Hrun & _ & _); [|done..].
    apply IH in Hrun; [|by apply wf_after_call|done].
    rewrite Hrun. destruct c as [input len|]; cbn [after_call stored_samples].
    + rewrite ring_in_order_after_store by done.
      rewrite last_samples_app_idemp, app_assoc; [done|].
      rewrite length_app, length_ring_in_order by done. lia.
    + done.
Qed.

(** [ring_has] is the number of samples stored since the last drain,
    reduced modulo 2^32. *)
Lemma run_ring_has cs : ∀ s h es s' k,
  wf s → Forall call_ok cs → ring_has s = to_unsigned h →
  run cs s = Done es s' k →
  ring_has s' = to_unsigned (pending_len h cs).
Proof.
  induction cs as [|c cs IH]; intros s h es s' k Hwf Hok Hh Hrun.
  - injection Hrun as <- <- <-. done.
  - apply Forall_cons in Hok as [Hc Hcs].
    apply run_cons_inv in Hrun as (_ & es' & k' & Hrun & _ & _); [|done..].
    unfold pending_len. cbn [foldl].
    eapply IH; [by apply wf_after_call|done| |done].
    destruct c as [input len|]; cbn [after_call pending_step].
    + cbn [after_store ring_has]. rewrite Hh. unfold to_unsigned.
      by rewrite Zplus_mod_idemp_l.
    + done.
Qed.

(** ** The ready flag *)

Lemma wf_initial d :
  (Z.to_nat RING_SIZE ≤ length d)%nat → wf (initial d).
Proof.
  intros Hd. pose proof RING_SIZE_pos.
  unfold wf, initial. cbn [ring ring_write data ring_has].
  rewrite length_replicate. unfold UINT_MOD. lia.
Qed.

Lemma ready_inv_initial d : ready_inv (initial d).
Proof.
  unfold ready_inv, initial. cbn [signalled ring_has].
  rewrite MIN_NEW_SAMPLES_eq. split; [by left|]. intros _. exact NumSamples_pos.
Qed.

Lemma signalled_after_store input len s :
  signalled (after_store input len s)
  = if wakes_consumer len s then 1 else signalled s.
Proof. reflexivity. Qed.

Lemma ready_inv_after_call c s : ready_inv s → ready_inv (after_call c s).
Proof.
  intros [H01 Hlow]. destruct c as [input len|]; cbn [after_call].
  - unfold ready_inv. rewrite signalled_after_store.
    cbn [after_store ring_has]. unfold wakes_consumer.
    destruct (bool_decide_reflect
                (MIN_NEW_SAMPLES ≤ to_unsigned (ring_has s + len))) as [Hge|Hlt];
      destruct (bool_decide_reflect (signalled s = 0)) as [Hz|Hnz];
      cbn [andb]; split; auto; intros; lia.
  - unfold ready_inv, after_drain. cbn [signalled ring_has].
    rewrite MIN_NEW_SAMPLES_eq. split; [by left|]. intros _. exact NumSamples_pos.
Qed.

Lemma run_ready_inv cs : ∀ s es s' k,
  wf s → Forall call_ok cs → ready_inv s → run cs s = Done es s' k →
  ready_inv s'.
Proof.
  induction cs as [|c cs IH]; intros s es s' k Hwf Hok Hinv Hrun.
  - injection Hrun as <- <- <-. done.
  - apply Forall_cons in Hok as [Hc Hcs].
    apply run_cons_inv in Hrun as (_ & es' & k' & Hrun & _ & _); [|done..].
    eapply IH; [by apply wf_after_call|done| |done].
    by apply ready_inv_after_call.
Qed.

(** [signalled] is set exactly when the threshold has been reached by a
    store since the last drain. *)
Lemma run_crossed cs : ∀ s g es s' k,
  wf s → Forall call_ok cs → (signalled s ≠ 0 ↔ g = true) →
  run cs s = Done es s' k →
  (signalled s' ≠ 0 ↔ crossed g es = true).
Proof.
  induction cs as [|c cs IH]; intros s g es s' k Hwf Hok Hg Hrun.
  - injection Hrun as <- <- <-. done.
  - apply Forall_cons in Hok as [Hc Hcs].
    apply run_cons_inv in Hrun as (_ & es' & k' & Hrun & -> & _); [|done..].
    unfold crossed. cbn [foldl].
    eapply IH; [by apply wf_after_call|done| |done].
    destruct c as [input len|]; cbn [after_call event_of crossed_step].
    + rewrite signalled_after_store. unfold wakes_consumer.
      destruct (bool_decide_reflect
                  (MIN_NEW_SAMPLES ≤ to_unsigned (ring_has s + len)));
        destruct (bool_decide_reflect (signalled s = 0)) as [Hz|Hnz];
        destruct g; cbn [andb orb]; intuition (congruence || lia).
    + cbn [after_drain signalled]. split; [done|discriminate].
Qed.

(** ** Wakes *)

(** While [signalled] is set, stores do not signal. *)
Lemma run_stores_no_wake cs : ∀ s es s' k,
  wf s → Forall call_ok cs → forallb is_store cs = true →
  signalled s ≠ 0 → run cs s = Done es s' k →
  k = 0%nat ∧ signalled s' = signalled s.
Proof.
  induction cs as [|c cs IH]; intros s es s' k Hwf Hok Hst Hsig Hrun.
  - injection Hrun as <- <- <-. done.
  - apply Forall_cons in Hok as [Hc Hcs].
    cbn [forallb] in Hst. apply andb_prop in Hst as [Hc' Hst].
    apply run_cons_inv in Hrun as (_ & es' & k' & Hrun & _ & ->); [|done..].
    destruct c as [input len|]; [|done].
    assert (Hw : wakes_consumer len s = false).
    { unfold wakes_consumer.
      rewrite (bool_decide_eq_false_2 (signalled s = 0)) by done.
      apply andb_false_r. }
    apply IH in Hrun as [-> Hsame]; [|by apply wf_after_call|done|done|].
    + rewrite Hsame. cbn [wakes_of after_call].
      rewrite signalled_after_store, Hw. done.
    + cbn [after_call]. rewrite signalled_after_store, Hw. done.
Qed.

(** Without a drain in between, stores wake the consumer once when they
    set [signalled] and not at all otherwise. *)
Lemma run_stores_wakes cs : ∀ s es s' k,
  wf s → Forall call_ok cs → forallb is_store cs = true →
  signalled s = 0 → run cs s = Done es s' k →
  k = if bool_decide (signalled s' = 0) then 0%nat else 1%nat.
Proof.
  induction cs as [|c cs IH]; intros s es s' k Hwf Hok Hst Hsig Hrun.
  - injection Hrun as <- <- <-. by rewrite bool_decide_eq_true_2.
  - apply Forall_cons in Hok as [Hc Hcs].
    cbn [forallb] in Hst. apply andb_prop in Hst as [Hc' Hst].
    apply run_cons_inv in Hrun as (_ & es' & k' & Hrun & _ & ->); [|done..].
    destruct c as [input len|]; [|done]. cbn [wakes_of after_call] in *.
    destruct (wakes_consumer len s) eqn:Hw.
    + apply run_stores_no_wake in Hrun as [-> Hsame];
        [|by apply wf_after_store|done|done|];
        rewrite ?signalled_after_store, ?Hw; [|done].
      rewrite Hsame, signalled_after_store, Hw. done.
    + apply IH in Hrun; [done|by apply wf_after_store|done|done|].
      by rewrite signalled_after_store, Hw.
Qed.

(** A drain completes only after some store has signalled. *)
Lemma run_take_needs_wake cs : ∀ s es s' k,
  wf s → Forall call_ok cs → signalled s = 0 → Take ∈ cs →
  run cs s = Done es s' k → (1 ≤ k)%nat.
Proof.
  induction cs as [|c cs IH]; intros s es s' k Hwf Hok Hsig Hin Hrun.
  - by apply elem_of_nil in Hin.
  - apply Forall_cons in Hok as [Hc Hcs].
    apply run_cons_inv in Hrun as (Hnb & es' & k' & Hrun & _ & ->); [|done..].
    destruct c as [input len|].
    + cbn [wakes_of after_call] in *.
      destruct (wakes_consumer len s) eqn:Hw; [lia|].
      apply elem_of_cons in Hin as [Heq|Hin]; [discriminate|].
      apply IH in Hrun; [lia|by apply wf_after_store|done| |done].
      by rewrite signalled_after_store, Hw.
    + cbn [blocks] in Hnb. by rewrite bool_decide_eq_true_2 in Hnb.
Qed.

(** ** Auxiliary facts for the main theorems *)

Lemma blit_whole dst src ip n :
  length dst = n → blit dst 0 src ip n = take n (drop ip src).
Proof.
  intros Hn. unfold blit. rewrite Nat.add_0_l.
  rewrite (drop_ge dst n) by lia. rewrite take_0, app_nil_r. done.
Qed.

Lemma blit_take_src dst op src ip n m :
  (ip + n ≤ m)%nat → blit dst op (take m src) ip n = blit dst op src ip n.
Proof.
  intros H. unfold blit. do 2 f_equal.
  apply list_eq. intros i. rewrite !lookup_take, !lookup_drop, lookup_take.
  repeat case_decide; done || lia.
Qed.

Lemma after_store_take_input input len s :
  wf s → batch_ok input len →
  after_store (take (Z.to_nat len) input) len s = after_store input len s.
Proof.
  intros (Hring & Hw & _) [Hlen Hin].
  pose proof RING_SIZE_pos.
  unfold after_store. f_equal. unfold ring_after.
  repeat case_bool_decide; rewrite !blit_take_src by lia; done.
Qed.

Lemma batch_ok_take input len :
  batch_ok input len → batch_ok (take (Z.to_nat len) input) len.
Proof. intros [Hlen Hin]. split; [done|]. rewrite length_take. lia. Qed.

Lemma ring_in_order_cursor_0 s : ring_write s = 0 → ring_in_order s = ring s.
Proof.
  intros Hw. unfold ring_in_order. rewrite Hw. cbn [Z.to_nat take drop].
  apply app_nil_r.
Qed.

Lemma pending_len_stores cs : ∀ h,
  Forall call_ok cs → forallb is_store cs = true →
  pending_len h cs = h + Z.of_nat (length (stored_samples cs)).
Proof.
  induction cs as [|c cs IH]; intros h Hok Hst.
  - cbn. lia.
  - apply Forall_cons in Hok as [Hc Hcs].
    cbn [forallb] in Hst. apply andb_prop in Hst as [Hc' Hst].
    destruct c as [input len|]; [|done].
    unfold pending_len. cbn [foldl pending_step stored_samples].
    fold (pending_len (h + len) cs). rewrite IH by done.
    destruct Hc as [Hlen Hin].
    rewrite length_app, length_take. lia.
Qed.

(** A drain completes exactly when [signalled] is set, and then hands
    over the ring in order. *)
Lemma getNextFragment_done s c s' k :
  wf s → getNextFragment s = Done c s' k →
  signalled s ≠ 0 ∧ c = to_int (ring_has s) ∧ s' = after_drain s ∧ k = 0%nat.
Proof.
  intros Hwf Hg. rewrite getNextFragment_eq in Hg by done.
  case_bool_decide; [discriminate|].
  injection Hg as <- <- <-. done.
Qed.

Lemma getNextFragment_ready s :
  wf s → signalled s ≠ 0 →
  getNextFragment s = Done (to_int (ring_has s)) (after_drain s) 0.
Proof.
  intros Hwf Hs. rewrite getNextFragment_eq by done.
  by rewrite bool_decide_eq_false_2.
Qed.

(** When the pending count meets the threshold, [signalled] is set. *)
Lemma ready_inv_signalled s :
  ready_inv s → MIN_NEW_SAMPLES ≤ ring_has s → signalled s ≠ 0.
Proof. intros [_ Hlow] Hge Hz. specialize (Hlow Hz). lia. Qed.

(** * Main theorems *)

(** C1. A store of [len >= RING_SIZE] samples overwrites the whole ring
    with the last [RING_SIZE] samples of the batch: slot [i] holds
    [input[len - RING_SIZE + i]], the older samples are dropped and
    [ring_write] becomes 0.  A drain right after it hands over exactly
    those samples, oldest first; it completes unless [ring_has] wrapped
    round below the threshold with [signalled] clear. *)
Theorem store_overrun input len s :
  wf s → batch_ok input len → RING_SIZE ≤ len →
  let latest :=
    take (Z.to_nat RING_SIZE) (drop (Z.to_nat (len - RING_SIZE)) input) in
  ∃ s' k,
    sndbuf_store input len s = Done tt s' k ∧
    ring s' = latest ∧
    length latest = Z.to_nat RING_SIZE ∧
    (∀ i, 0 ≤ i < RING_SIZE →
       ring s' !! Z.to_nat i = input !! Z.to_nat (len - RING_SIZE + i)) ∧
    ring_write s' = 0 ∧
    (∀ c s'' k', getNextFragment s' = Done c s'' k' → fragment s'' = latest) ∧
    (signalled s ≠ 0 ∨ ring_has s + len < UINT_MOD →
       ∃ c s'', getNextFragment s' = Done c s'' 0).
Proof.
  intros Hwf Hb Hover latest.
  pose proof (wf_after_store input len s Hwf Hb) as Hwf'.
  pose proof RING_SIZE_pos as HC.
  exists (after_store input len s), (if wakes_consumer len s then 1 else 0)%nat.
  assert (Hring' : ring (after_store input len s) = latest).
  { cbn [after_store ring]. unfold ring_after.
    rewrite bool_decide_eq_true_2 by done.
    apply blit_whole. destruct Hwf as (Hring & _). done. }
  assert (Hcur : ring_write (after_store input len s) = 0).
  { cbn [after_store ring_write]. unfold cursor_after.
    by rewrite bool_decide_eq_true_2. }
  split; [by apply sndbuf_store_eq|].
  split; [done|].
  split.
  { destruct Hb as [Hlen Hin]. unfold latest.
    rewrite length_take, length_drop. lia. }
  split.
  { intros i Hi. cbn [after_store ring].
    by apply lookup_ring_after_overrun. }
  split; [done|].
  split.
  - intros c s'' k' Hg.
    apply getNextFragment_done in Hg as (_ & _ & -> & _); [|done].
    rewrite fragment_after_drain by done.
    by rewrite ring_in_order_cursor_0.
  - intros Hlive. eexists _, _. apply getNextFragment_ready; [done|].
    rewrite signalled_after_store.
    destruct Hlive as [Hset|Hnowrap].
    + destruct (wakes_consumer len s); [done|done].
    + destruct Hwf as (_ & _ & _ & Hhas). destruct Hb as [Hlen _].
      unfold wakes_consumer.
      rewrite to_unsigned_small by lia.
      rewrite (bool_decide_eq_true_2 (MIN_NEW_SAMPLES ≤ _))
        by (rewrite MIN_NEW_SAMPLES_eq; unfold RING_SIZE in *; lia).
      case_bool_decide; cbn [andb]; [done|done].
Qed.

(** C2. A store of [len < RING_SIZE] samples with the cursor at [w] puts
    [input[j]] into slot [(w + j) mod RING_SIZE] for every [j < len],
    leaves every other slot as it was, and moves the cursor to
    [(w + len) mod RING_SIZE]: to 0 when the batch ends exactly at the
    end of the ring, and to the length of the tail when it wraps.  The
    first sample of the batch sits in slot [w], the last one in the slot
    before the new cursor. *)
Theorem store_normal input len s :
  wf s → batch_ok input len → len < RING_SIZE →
  let w := ring_write s in
  ∃ s' k,
    sndbuf_store input len s = Done tt s' k ∧
    (∀ j, 0 ≤ j < len →
       ring s' !! Z.to_nat ((w + j) mod RING_SIZE) = input !! Z.to_nat j) ∧
    (∀ i, 0 ≤ i < RING_SIZE →
       (∀ j, 0 ≤ j < len → i ≠ (w + j) mod RING_SIZE) →
       ring s' !! Z.to_nat i = ring s !! Z.to_nat i) ∧
    length (ring s') = Z.to_nat RING_SIZE ∧
    ring_write s' = (w + len) mod RING_SIZE ∧
    (w + len = RING_SIZE → ring_write s' = 0) ∧
    (RING_SIZE < w + len → ring_write s' = len - (RING_SIZE - w)) ∧
    (0 < len →
       ring s' !! Z.to_nat w = input !! 0%nat ∧
       ring s' !! Z.to_nat ((ring_write s' - 1) mod RING_SIZE)
       = input !! Z.to_nat (len - 1)).
Proof.
  intros Hwf Hb Hnorm w.
  pose proof (wf_after_store input len s Hwf Hb) as Hwf'.
  pose proof RING_SIZE_pos as HC.
  assert (Hw : 0 ≤ w < RING_SIZE) by (destruct Hwf as (_ & Hw & _); exact Hw).
  assert (Hlen : 0 ≤ len) by (destruct Hb as [[Hlen _] _]; exact Hlen).
  exists (after_store input len s), (if wakes_consumer len s then 1 else 0)%nat.
  assert (Hslot : ∀ j, 0 ≤ j < len →
            ring (after_store input len s) !! Z.to_nat ((w + j) mod RING_SIZE)
            = input !! Z.to_nat j).
  { intros j Hj. cbn [after_store ring].
    rewrite lookup_ring_after_normal;
      [|done|done|done|apply Z.mod_pos_bound; lia].
    fold w. rewrite Zminus_mod_idemp_l.
    replace (w + j - w) with j by lia.
    rewrite Z.mod_small by lia.
    by rewrite bool_decide_eq_true_2 by lia. }
  assert (Hcur : ring_write (after_store input len s) = (w + len) mod RING_SIZE).
  { cbn [after_store ring_write]. unfold cursor_after.
    by rewrite bool_decide_eq_false_2 by lia. }
  split; [by apply sndbuf_store_eq|].
  split; [done|].
  split.
  { intros i Hi Hother. cbn [after_store ring].
    rewrite lookup_ring_after_normal by done. fold w.
    case_bool_decide as Hin; [|done].
    exfalso. apply (Hother ((i - w) mod RING_SIZE)).
    - split; [|done]. apply Z.mod_pos_bound. lia.
    - rewrite Zplus_mod_idemp_r.
      replace (w + (i - w)) with i by lia.
      by rewrite Z.mod_small. }
  split; [by destruct Hwf' as (Hring' & _)|].
  split; [done|].
  split; [intros Hexact; rewrite Hcur, Hexact; apply Z.mod_same; lia|].
  split; [intros Hwrap; rewrite Hcur, mod_once by lia; lia|].
  intros Hpos. split.
  - pose proof (Hslot 0 ltac:(lia)) as H0.
    rewrite Z.add_0_r, Z.mod_small in H0 by lia. exact H0.
  - rewrite Hcur, Zminus_mod_idemp_l.
    replace (w + len - 1) with (w + (len - 1)) by lia.
    apply Hslot. lia.
Qed.

(** C3. A drain hands over the flat sequence [ring[ring_write]], ...,
    [ring[RING_SIZE-1]], [ring[0]], ..., [ring[ring_write-1]]: the
    [RING_SIZE - ring_write] samples from the cursor to the end of the
    ring, then the [ring_write] samples from index 0; [RING_SIZE] samples
    in all. *)
Theorem drain_in_order s :
  wf s → signalled s ≠ 0 →
  let w := Z.to_nat (ring_write s) in
  ∃ c s',
    getNextFragment s = Done c s' 0 ∧
    fragment s' = drop w (ring s) ++ take w (ring s) ∧
    length (drop w (ring s)) = Z.to_nat (RING_SIZE - ring_write s) ∧
    length (take w (ring s)) = w ∧
    length (fragment s') = Z.to_nat RING_SIZE ∧
    (∀ i, 0 ≤ i < RING_SIZE →
       fragment s' !! Z.to_nat i
       = ring s !! Z.to_nat ((ring_write s + i) mod RING_SIZE)).
Proof.
  intros Hwf Hsig w.
  exists (to_int (ring_has s)), (after_drain s).
  split; [by apply getNextFragment_ready|].
  rewrite fragment_after_drain by done.
  split; [done|].
  destruct Hwf as (Hring & Hw & Hrest).
  split; [rewrite length_drop; lia|].
  split; [rewrite length_take; lia|].
  split; [by apply length_ring_in_order|].
  intros i Hi. by apply lookup_ring_in_order.
Qed.

Lemma last_samples_app_short n a b :
  length a = n → (length b ≤ n)%nat →
  last_samples n (a ++ b) = drop (length b) a ++ b.
Proof.
  intros Ha Hb. unfold last_samples. rewrite length_app.
  replace (length a + length b - n)%nat with (length b) by lia.
  rewrite drop_app_le by lia. done.
Qed.

(** After a run of stores the drain completes once the threshold is
    met, as long as the counter has not wrapped. *)
Lemma stores_then_ready cs s es s' k :
  wf s → ready_inv s → ring_has s = 0 →
  Forall call_ok cs → forallb is_store cs = true →
  run cs s = Done es s' k →
  MIN_NEW_SAMPLES ≤ Z.of_nat (length (stored_samples cs)) < UINT_MOD →
  signalled s' ≠ 0.
Proof.
  intros Hwf Hinv Hzero Hok Hst Hrun Htotal.
  apply ready_inv_signalled; [by eapply run_ready_inv|].
  erewrite (run_ring_has cs s 0); [|done|done| |done].
  - rewrite pending_len_stores by done.
    rewrite to_unsigned_small; lia.
  - rewrite Hzero. symmetry. apply to_unsigned_small. unfold UINT_MOD. lia.
Qed.

(** C4. After any sequence of stores on a fresh channel the drain hands
    over the last [RING_SIZE] samples of the stream made of [RING_SIZE]
    zeros followed by all the batches in call order.  When at most
    [RING_SIZE] samples were stored they all appear once, in order, after
    zeros for the slots never written.  For two consecutive stores from
    any state the fragment ends with both batches in call order, cut to
    the last [RING_SIZE] samples. *)
Theorem fresh_channel_stream d cs :
  (Z.to_nat RING_SIZE ≤ length d)%nat →
  Forall call_ok cs → forallb is_store cs = true →
  let C := Z.to_nat RING_SIZE in
  let stream := replicate C zero_sample ++ stored_samples cs in
  let total := length (stored_samples cs) in
  (∃ es s k,
     run cs (initial d) = Done es s k ∧
     (∀ c s' k', getNextFragment s = Done c s' k' →
        fragment s' = last_samples C stream) ∧
     (MIN_NEW_SAMPLES ≤ Z.of_nat total < UINT_MOD →
        ∃ c s', getNextFragment s = Done c s' 0) ∧
     ((total ≤ C)%nat →
        last_samples C stream
        = replicate (C - total) zero_sample ++ stored_samples cs)) ∧
  (∀ s0 input1 len1 input2 len2,
     wf s0 → batch_ok input1 len1 → batch_ok input2 len2 →
     let both := take (Z.to_nat len1) input1 ++ take (Z.to_nat len2) input2 in
     ∃ es s k,
       run [Store input1 len1; Store input2 len2] s0 = Done es s k ∧
       ∀ c s' k', getNextFragment s = Done c s' k' →
         ((C ≤ length both)%nat → fragment s' = last_samples C both) ∧
         ((length both ≤ C)%nat →
            fragment s' = drop (length both) (ring_in_order s0) ++ both)).
Proof.
  intros Hd Hok Hst C stream total.
  pose proof (wf_initial d Hd) as Hwf0.
  split.
  - destruct (run_stores_done cs (initial d) Hwf0 Hok Hst) as (es & s & k & Hrun).
    exists es, s, k.
    pose proof (run_wf _ _ _ _ _ Hwf0 Hok Hrun) as Hwf.
    split; [done|]. split; [|split].
    + intros c s' k' Hg.
      apply getNextFragment_done in Hg as (_ & _ & -> & _); [|done].
      rewrite fragment_after_drain by done.
      rewrite (run_ring_in_order cs (initial d) es s k) by done.
      rewrite ring_in_order_cursor_0 by done. done.
    + intros Htotal. eexists _, _. apply getNextFragment_ready; [done|].
      eapply stores_then_ready; [exact Hwf0|apply ready_inv_initial|done..].
    + intros Hle. unfold stream.
      rewrite last_samples_app_short by (rewrite ?length_replicate; done).
      by rewrite drop_replicate.
  - intros s0 input1 len1 input2 len2 Hwf Hb1 Hb2 both.
    assert (Hok2 : Forall call_ok [Store input1 len1; Store input2 len2])
      by (apply Forall_cons; split; [done|];
          apply Forall_cons; split; [done|]; apply Forall_nil_2).
    destruct (run_stores_done _ s0 Hwf Hok2 eq_refl) as (es & s & k & Hrun).
    exists es, s, k. split; [done|].
    intros c s' k' Hg.
    pose proof (run_wf _ _ _ _ _ Hwf Hok2 Hrun) as Hwf'.
    apply getNextFragment_done in Hg as (_ & _ & -> & _); [|done].
    rewrite fragment_after_drain by done.
    rewrite (run_ring_in_order _ s0 es s k) by done.
    cbn [stored_samples]. rewrite app_nil_r. fold both.
    split; intros Hlen.
    + by apply last_samples_app_long.
    + apply last_samples_app_short; [by apply length_ring_in_order|done].
Qed.

(** C5. A store adds [len] to [ring_has] (modulo 2^32) and signals the
    condition variable exactly when that updated count is at least the
    threshold and [signalled] is clear, setting [signalled] in the same
    step; with [signalled] already set it does not signal.  So a run of
    stores that keeps the count at or above the threshold, with no drain
    in between, wakes the consumer exactly once.  A drain does not
    complete while [signalled] is clear, no run from the initial state
    completes a drain before a store has signalled, and on a fresh channel
    a store that reaches the threshold lets the drain through with that
    one wake. *)
Theorem wake_edge_triggered input len s cs s0 d cs2 :
  wf s → batch_ok input len →
  wf s0 → signalled s0 = 0 →
  Forall call_ok cs → forallb is_store cs = true → cs ≠ [] →
  stays_above (ring_has s0) cs →
  (Z.to_nat RING_SIZE ≤ length d)%nat → Forall call_ok cs2 →
  (∃ s' k,
     sndbuf_store input len s = Done tt s' k ∧
     ring_has s' = to_unsigned (ring_has s + len) ∧
     (MIN_NEW_SAMPLES ≤ to_unsigned (ring_has s + len) ∧ signalled s = 0 →
        k = 1%nat ∧ signalled s' = 1) ∧
     (¬ (MIN_NEW_SAMPLES ≤ to_unsigned (ring_has s + len) ∧ signalled s = 0) →
        k = 0%nat ∧ signalled s' = signalled s) ∧
     (signalled s ≠ 0 → k = 0%nat ∧ signalled s' = signalled s)) ∧
  (∃ es s' k, run cs s0 = Done es s' k ∧ k = 1%nat ∧ signalled s' = 1) ∧
  getNextFragment s0 = Blocked ∧
  (∀ es s' k,
     Take ∈ cs2 → run cs2 (initial d) = Done es s' k → (1 ≤ k)%nat) ∧
  (MIN_NEW_SAMPLES ≤ len →
     ∃ es s', run [Store input len; Take] (initial d) = Done es s' 1).
Proof.
  intros Hwf Hb Hwf0 Hsig0 Hok Hst Hne Habove Hd Hok2.
  split; [|split; [|split; [|split]]].
  - exists (after_store input len s), (if wakes_consumer len s then 1 else 0)%nat.
    split; [by apply sndbuf_store_eq|].
    split; [reflexivity|].
    rewrite signalled_after_store. unfold wakes_consumer.
    destruct (bool_decide_reflect
                (MIN_NEW_SAMPLES ≤ to_unsigned (ring_has s + len)));
      destruct (bool_decide_reflect (signalled s = 0));
      cbn [andb]; intuition.
  - destruct (run_stores_done cs s0 Hwf0 Hok Hst) as (es & s' & k & Hrun).
    exists es, s', k. split; [done|].
    destruct cs as [|c cs]; [done|].
    apply Forall_cons in Hok as [Hc Hcs].
    cbn [forallb] in Hst. apply andb_prop in Hst as [Hc' Hst].
    apply run_cons_inv in Hrun as (_ & es' & k' & Hrun & _ & ->); [|done..].
    destruct c as [input1 len1|]; [|done].
    destruct Habove as [Hfirst _].
    assert (Hw : wakes_consumer len1 s0 = true).
    { unfold wakes_consumer. by rewrite !bool_decide_eq_true_2. }
    apply run_stores_no_wake in Hrun as [-> Hsame];
      [|by apply wf_after_call|done|done|].
    + cbn [wakes_of after_call] in *.
      rewrite Hsame, signalled_after_store, Hw. done.
    + cbn [after_call]. by rewrite signalled_after_store, Hw.
  - rewrite getNextFragment_eq by done. by rewrite bool_decide_eq_true_2.
  - intros es s' k Hin Hrun.
    eapply run_take_needs_wake; [by apply wf_initial|done| |done|done].
    done.
  - intros Hmin.
    pose proof (wf_initial d Hd) as Hwfi.
    pose proof (wf_after_store input len _ Hwfi Hb) as Hwf1.
    assert (Hw : wakes_consumer len (initial d) = true).
    { unfold wakes_consumer. cbn [initial ring_has signalled].
      rewrite Z.add_0_l, to_unsigned_small by (destruct Hb as [? _]; done).
      by rewrite !bool_decide_eq_true_2. }
    rewrite run_cons by done. cbn [blocks after_call].
    rewrite run_cons by done. cbn [blocks after_call run].
    rewrite signalled_after_store, Hw.
    rewrite (bool_decide_eq_false_2 (1 = 0)) by done.
    unfold mret, M_ret. cbn [wakes_of]. rewrite Hw.
    eexists _, _. reflexivity.
Qed.

Lemma to_unsigned_to_int x : to_unsigned (to_int x) = to_unsigned x.
Proof.
  unfold to_unsigned, to_int. rewrite Zminus_mod_idemp_l.
  f_equal. lia.
Qed.

Lemma ready_inv_after_drain s : ready_inv (after_drain s).
Proof.
  unfold ready_inv, after_drain. cbn [signalled ring_has].
  rewrite MIN_NEW_SAMPLES_eq. split; [by left|]. intros _. exact NumSamples_pos.
Qed.

(** C6, as the code has it.  The count a drain returns is [ring_has]
    converted to the [int] return type: the sum of the [len] arguments of
    the stores since the previous drain (since construction for the first
    one), reduced modulo 2^32 and read as a signed 32-bit number.  It is
    congruent to the sum modulo 2^32 and equal to the reduced sum whenever
    that is at most [INT_MAX]; it can exceed [RING_SIZE]. *)
Theorem drain_count d cs es s k c s' k' :
  (Z.to_nat RING_SIZE ≤ length d)%nat → Forall call_ok cs →
  run cs (initial d) = Done es s k →
  getNextFragment s = Done c s' k' →
  let total := pending_len 0 cs in
  c = to_int (to_unsigned total) ∧
  to_unsigned c = to_unsigned total ∧
  (to_unsigned total ≤ INT_MAX → c = to_unsigned total) ∧
  (∃ input len s1 k1 c1 s2 k2,
     batch_ok input len ∧
     sndbuf_store input len (initial d) = Done tt s1 k1 ∧
     getNextFragment s1 = Done c1 s2 k2 ∧ RING_SIZE < c1).
Proof.
  intros Hd Hok Hrun Hg total.
  pose proof (wf_initial d Hd) as Hwf0.
  pose proof (run_wf _ _ _ _ _ Hwf0 Hok Hrun) as Hwf.
  apply getNextFragment_done in Hg as (_ & -> & _ & _); [|done].
  assert (Hhas : ring_has s = to_unsigned total).
  { eapply run_ring_has; [exact Hwf0|done| |done]. reflexivity. }
  rewrite Hhas.
  split; [done|].
  split; [by rewrite to_unsigned_to_int; unfold to_unsigned; rewrite Z.mod_mod|].
  split.
  { intros Hsmall. apply to_int_small.
    pose proof (to_unsigned_range total). lia. }
  pose proof RING_SIZE_pos as HC.
  assert (HCmax : RING_SIZE ≤ INT_MAX) by exact RING_SIZE_int.
  unfold INT_MAX in HCmax.
  set (input := replicate (Z.to_nat (RING_SIZE + 1)) zero_sample).
  set (len := RING_SIZE + 1).
  assert (Hb : batch_ok input len).
  { unfold batch_ok, input, len, UINT_MOD.
    rewrite length_replicate. unfold RING_SIZE in *. lia. }
  pose proof (wf_after_store input len _ Hwf0 Hb) as Hwf1.
  assert (Hhas1 : ring_has (after_store input len (initial d)) = len).
  { cbn [after_store initial ring_has]. rewrite Z.add_0_l.
    apply to_unsigned_small. unfold len, UINT_MOD, RING_SIZE in *. lia. }
  exists input, len, (after_store input len (initial d)).
  eexists _, _, _, _.
  split; [done|].
  split; [by apply sndbuf_store_eq|].
  split.
  - apply getNextFragment_ready; [done|].
    apply ready_inv_signalled.
    + apply (ready_inv_after_call (Store input len)), ready_inv_initial.
    + rewrite Hhas1, MIN_NEW_SAMPLES_eq. unfold len, RING_SIZE. lia.
  - rewrite Hhas1, to_int_small; unfold len, INT_MAX, RING_SIZE in *; lia.
Qed.

(** C7. A drain leaves the ring and the write cursor as they were; it
    returns [ring_has] as the count, resets it to 0 and clears
    [signalled]. *)
Theorem drain_frame s :
  wf s → signalled s ≠ 0 →
  ∃ c s',
    getNextFragment s = Done c s' 0 ∧
    ring s' = ring s ∧
    ring_write s' = ring_write s ∧
    c = to_int (ring_has s) ∧
    (ring_has s ≤ INT_MAX → c = ring_has s) ∧
    ring_has s' = 0 ∧
    signalled s' = 0.
Proof.
  intros Hwf Hsig.
  exists (to_int (ring_has s)), (after_drain s).
  split; [by apply getNextFragment_ready|].
  repeat (split; [done|]).
  split; [|done].
  intros Hsmall. apply to_int_small.
  destruct Hwf as (_ & _ & _ & Hhas). lia.
Qed.

(** C8. In every state reached from the initial one by stores and drains,
    [signalled] is set exactly when some store since the last drain left
    [ring_has] at or above the threshold [RING_SIZE / 2]; with [signalled]
    clear fewer than the threshold are pending; a store sets a clear
    [signalled] exactly when it brings [ring_has] to the threshold; a
    drain clears it and happens only when it is set; [signalled] is
    always 0 or 1. *)
Theorem ready_flag_invariant d cs es s k :
  (Z.to_nat RING_SIZE ≤ length d)%nat → Forall call_ok cs →
  run cs (initial d) = Done es s k →
  (signalled s ≠ 0 ↔ crossed false es = true) ∧
  (signalled s = 0 → ring_has s < MIN_NEW_SAMPLES) ∧
  (signalled s = 0 ∨ signalled s = 1) ∧
  MIN_NEW_SAMPLES = RING_SIZE / 2 ∧
  (∀ input len,
     batch_ok input len → signalled s = 0 →
     ∃ s1 k1,
       sndbuf_store input len s = Done tt s1 k1 ∧
       (signalled s1 = 1 ↔ MIN_NEW_SAMPLES ≤ ring_has s1) ∧
       (signalled s1 = 0 ↔ ring_has s1 < MIN_NEW_SAMPLES)) ∧
  (signalled s = 1 →
     ∃ c s1, getNextFragment s = Done c s1 0 ∧ signalled s1 = 0) ∧
  (signalled s = 0 → getNextFragment s = Blocked).
Proof.
  intros Hd Hok Hrun.
  pose proof (wf_initial d Hd) as Hwf0.
  pose proof (run_wf _ _ _ _ _ Hwf0 Hok Hrun) as Hwf.
  pose proof (run_ready_inv _ _ _ _ _ Hwf0 Hok (ready_inv_initial d) Hrun)
    as [H01 Hlow].
  split.
  { eapply run_crossed; [exact Hwf0|done| |done].
    cbn [initial signalled]. split; [done|discriminate]. }
  split; [done|]. split; [done|].
  split.
  { rewrite MIN_NEW_SAMPLES_eq. unfold RING_SIZE.
    symmetry. apply Z.div_mul. lia. }
  split; [|split].
  - intros input len Hb Hz.
    exists (after_store input len s), (if wakes_consumer len s then 1 else 0)%nat.
    split; [by apply sndbuf_store_eq|].
    rewrite signalled_after_store. cbn [after_store ring_has].
    unfold wakes_consumer.
    rewrite (bool_decide_eq_true_2 (signalled s = 0)) by done.
    rewrite andb_true_r. rewrite Hz.
    case_bool_decide; split; intros; lia.
  - intros Hone. exists (to_int (ring_has s)), (after_drain s).
    split; [|done]. apply getNextFragment_ready; [done|lia].
  - intros Hz. rewrite getNextFragment_eq by done.
    by rewrite bool_decide_eq_true_2.
Qed.

Lemma memcpy_in_bounds dst op src ip n r :
  memcpy dst op src ip n = Some r → 0 < n →
  0 ≤ op ∧ op + n ≤ Z.of_nat (length dst) ∧
  0 ≤ ip ∧ ip + n ≤ Z.of_nat (length src).
Proof.
  unfold memcpy. intros Hm Hn.
  rewrite bool_decide_eq_true_2 in Hm by lia.
  apply copy_in_bounds in Hm; lia.
Qed.

(** C9. With [input] holding [len] samples and the cursor inside the
    ring, neither call can fail: a store completes, a drain completes or
    waits, every element they touch lies inside its array (a store reads
    nothing beyond the first [len] samples of [input]), and the cursor
    stays inside the ring, also after an overrun. *)
Theorem calls_are_safe input len s :
  wf s → batch_ok input len →
  (∃ s' k,
     sndbuf_store input len s = Done tt s' k ∧
     sndbuf_store (take (Z.to_nat len) input) len s = Done tt s' k ∧
     wf s' ∧ 0 ≤ ring_write s' < RING_SIZE) ∧
  getNextFragment s ≠ Fault ∧
  (signalled s ≠ 0 →
     ∃ c s', getNextFragment s = Done c s' 0 ∧
             wf s' ∧ 0 ≤ ring_write s' < RING_SIZE) ∧
  (∀ dst op src ip n r,
     memcpy dst op src ip n = Some r → 0 < n →
     0 ≤ op ∧ op + n ≤ Z.of_nat (length dst) ∧
     0 ≤ ip ∧ ip + n ≤ Z.of_nat (length src)).
Proof.
  intros Hwf Hb.
  pose proof (wf_after_store input len s Hwf Hb) as Hwf'.
  split; [|split; [|split]].
  - exists (after_store input len s), (if wakes_consumer len s then 1 else 0)%nat.
    split; [by apply sndbuf_store_eq|].
    split.
    { rewrite sndbuf_store_eq by (done || by apply batch_ok_take).
      by rewrite after_store_take_input. }
    split; [done|]. by destruct Hwf' as (_ & Hw & _).
  - rewrite getNextFragment_eq by done. by case_bool_decide.
  - intros Hsig. exists (to_int (ring_has s)), (after_drain s).
    split; [by apply getNextFragment_ready|].
    pose proof (wf_after_drain s Hwf) as Hwfd.
    split; [done|]. by destruct Hwfd as (_ & Hw & _).
  - apply memcpy_in_bounds.
Qed.

(** C10. Every fragment has exactly [RING_SIZE] samples.  When fewer
    than [RING_SIZE] samples arrive between two drains, the slots not
    overwritten keep their contents, so the later fragment starts with the
    tail of the earlier one: old samples are delivered again, and the
    fragment is never short. *)
Theorem underrun_repeats s cs :
  wf s → signalled s ≠ 0 →
  Forall call_ok cs → forallb is_store cs = true →
  let C := Z.to_nat RING_SIZE in
  let n := length (stored_samples cs) in
  (n < C)%nat →
  ∃ c1 s1 es s2 k,
    getNextFragment s = Done c1 s1 0 ∧
    length (fragment s1) = C ∧
    run cs s1 = Done es s2 k ∧
    (∀ c2 s3 k3,
       getNextFragment s2 = Done c2 s3 k3 →
       length (fragment s3) = C ∧
       fragment s3 = drop n (fragment s1) ++ stored_samples cs ∧
       take (C - n) (fragment s3) = drop n (fragment s1)) ∧
    (MIN_NEW_SAMPLES ≤ Z.of_nat n → ∃ c2 s3, getNextFragment s2 = Done c2 s3 0).
Proof.
  intros Hwf Hsig Hok Hst C n Hn.
  pose proof (wf_after_drain s Hwf) as Hwf1.
  destruct (run_stores_done cs (after_drain s) Hwf1 Hok Hst)
    as (es & s2 & k & Hrun).
  pose proof (run_wf _ _ _ _ _ Hwf1 Hok Hrun) as Hwf2.
  pose proof RING_SIZE_pos as HC.
  assert (HCmax : RING_SIZE ≤ INT_MAX) by exact RING_SIZE_int.
  exists (to_int (ring_has s)), (after_drain s), es, s2, k.
  split; [by apply getNextFragment_ready|].
  rewrite fragment_after_drain by done.
  pose proof (length_ring_in_order s Hwf) as Hlen1.
  split; [done|]. split; [done|]. split.
  - intros c2 s3 k3 Hg.
    apply getNextFragment_done in Hg as (_ & _ & -> & _); [|done].
    rewrite fragment_after_drain by done.
    assert (Hfrag : ring_in_order s2
                    = drop n (ring_in_order s) ++ stored_samples cs).
    { rewrite (run_ring_in_order cs (after_drain s) es s2 k) by done.
      change (ring_in_order (after_drain s)) with (ring_in_order s).
      apply last_samples_app_short; [done|]. fold n. fold C. lia. }
    split; [by apply length_ring_in_order|].
    split; [done|].
    rewrite Hfrag. rewrite take_app_length'; [done|].
    rewrite length_drop. fold C in Hlen1. lia.
  - intros Hmin. eexists _, _. apply getNextFragment_ready; [done|].
    eapply stores_then_ready;
      [exact Hwf1|apply ready_inv_after_drain|done|done|done|exact Hrun|].
    fold n. unfold INT_MAX, UINT_MOD in *. lia.
Qed.

(** * Further properties of the two calls *)

(** A copy of at least one element that leaves either array fails. *)
Lemma memcpy_fault dst op src ip n :
  0 < n →
  Z.of_nat (length dst) < op + n ∨ Z.of_nat (length src) < ip + n →
  memcpy dst op src ip n = None.
Proof.
  intros Hn Hout.
  destruct (memcpy dst op src ip n) as [r|] eqn:Hm; [|done].
  apply memcpy_in_bounds in Hm; [|done]. lia.
Qed.

Lemma after_store_empty input s :
  wf s → ready_inv s →
  after_store input 0 s = s ∧ wakes_consumer 0 s = false.
Proof.
  intros (Hring & Hw & _ & Hhas) [_ Hlow].
  pose proof RING_SIZE_pos as HC.
  assert (Hwake : wakes_consumer 0 s = false).
  { unfold wakes_consumer. rewrite Z.add_0_r, to_unsigned_small by done.
    destruct (bool_decide_reflect (signalled s = 0)) as [Hz|Hnz];
      [|apply andb_false_r].
    rewrite bool_decide_eq_false_2 by (specialize (Hlow Hz); lia). done. }
  split; [|done].
  unfold after_store. rewrite Hwake.
  unfold ring_after, cursor_after.
  rewrite bool_decide_eq_false_2 by lia.
  rewrite bool_decide_eq_true_2 by lia.
  rewrite !Z.add_0_r, Z.mod_small, to_unsigned_small by done.
  unfold blit. change (Z.to_nat 0) with 0%nat.
  rewrite Nat.add_0_r, take_0, app_nil_l, take_drop.
  by destruct s.
Qed.

(** X1. Storing an empty batch changes nothing and wakes nobody, whatever
    [input] points to. *)
Theorem store_empty input s :
  wf s → ready_inv s → sndbuf_store input 0 s = Done tt s 0.
Proof.
  intros Hwf Hinv.
  assert (Hb : batch_ok input 0) by (unfold batch_ok, UINT_MOD; lia).
  rewrite sndbuf_store_eq by done.
  destruct (after_store_empty input s Hwf Hinv) as [-> ->]. done.
Qed.

(** X2. A store runs off the end of the caller's buffer exactly when
    [len] exceeds the number of samples [input] holds. *)
Theorem store_fault_iff input len s :
  wf s → 0 ≤ len < UINT_MOD →
  sndbuf_store input len s = Fault ↔ Z.of_nat (length input) < len.
Proof.
  intros Hwf Hlen. split.
  - intros Hfault.
    destruct (decide (Z.of_nat (length input) < len)) as [|Hin]; [done|].
    rewrite sndbuf_store_eq in Hfault by (done || (split; lia)).
    discriminate.
  - intros Hshort.
    destruct Hwf as (Hring & Hw & Hdata & Hhas).
    pose proof RING_SIZE_pos as HC.
    assert (HCmax : RING_SIZE ≤ INT_MAX) by exact RING_SIZE_int.
    unfold INT_MAX in HCmax. unfold UINT_MOD in Hlen.
    unfold sndbuf_store. rewrite RING_SIZE_unsigned.
    destruct (bool_decide_reflect (RING_SIZE ≤ len)) as [Hover|Hnorm].
    + run_M. rewrite memcpy_fault by lia. reflexivity.
    + apply Z.nle_gt in Hnorm. run_M.
      rewrite (to_unsigned_small (RING_SIZE - ring_write s))
        by (unfold UINT_MOD; lia).
      destruct (bool_decide_reflect (len < RING_SIZE - ring_write s));
        [|destruct (bool_decide_reflect (RING_SIZE - ring_write s = len))];
        cbn [ring ring_write signalled ring_has data].
      * rewrite memcpy_fault by lia. reflexivity.
      * rewrite memcpy_fault by lia. reflexivity.
      * rewrite (to_unsigned_small (len - (RING_SIZE - ring_write s)))
          by (unfold UINT_MOD; lia).
        rewrite (to_int_small (len - (RING_SIZE - ring_write s)))
          by (unfold INT_MAX; lia).
        rewrite memcpy_fault by lia. reflexivity.
Qed.

(** X3. With a fragment ready, a drain runs off the end of [data] exactly
    when [data] has room for fewer than [RING_SIZE] samples. *)
Theorem drain_fault_iff s :
  length (ring s) = Z.to_nat RING_SIZE →
  0 ≤ ring_write s < RING_SIZE →
  0 ≤ ring_has s < UINT_MOD →
  signalled s ≠ 0 →
  getNextFragment s = Fault ↔ (length (data s) < Z.to_nat RING_SIZE)%nat.
Proof.
  intros Hring Hw Hhas Hsig. split.
  - intros Hfault.
    destruct (decide (length (data s) < Z.to_nat RING_SIZE)%nat) as [|Hroom];
      [done|].
    rewrite getNextFragment_ready in Hfault; [discriminate| |done].
    repeat split; done || lia.
  - intros Hshort.
    pose proof RING_SIZE_pos as HC.
    assert (HCmax : RING_SIZE ≤ INT_MAX) by exact RING_SIZE_int.
    unfold INT_MAX in HCmax.
    unfold getNextFragment. run_M.
    rewrite bool_decide_eq_false_2 by done.
    rewrite (to_unsigned_small (RING_SIZE - ring_write s))
      by (unfold UINT_MOD; lia).
    destruct (decide (Z.of_nat (length (data s)) < RING_SIZE - ring_write s))
      as [Hfirst|Hfirst].
    + rewrite memcpy_fault by lia. reflexivity.
    + rewrite memcpy_blit by lia.
      cbn [ring ring_write signalled ring_has data].
      rewrite bool_decide_eq_true_2 by lia.
      cbn [ring ring_write signalled ring_has data].
      change (Z.to_nat 0) with 0%nat.
      rewrite memcpy_fault by (rewrite ?length_blit; lia).
      reflexivity.
Qed.

(** X4. The producer never touches [data]: whatever is stored after a
    drain, the fragment the visualizer holds stays as it was delivered. *)
Theorem stores_keep_data cs s :
  wf s → Forall call_ok cs → forallb is_store cs = true →
  ∃ es s' k,
    run cs s = Done es s' k ∧ data s' = data s ∧ fragment s' = fragment s.
Proof.
  revert s. induction cs as [|c cs IH]; intros s Hwf Hok Hst.
  - by exists [], s, 0%nat.
  - apply Forall_cons in Hok as [Hc Hcs].
    cbn [forallb] in Hst. apply andb_prop in Hst as [Hc' Hst].
    destruct c as [input len|]; [|done].
    destruct (IH (after_store input len s)) as (es & s' & k & Hrun & Hdata & _);
      [by apply wf_after_store|done|done|].
    rewrite run_cons by done. cbn [blocks after_call]. rewrite Hrun.
    eexists _, _, _. split; [done|].
    cbn [after_store data] in Hdata.
    split; [done|]. unfold fragment. by rewrite Hdata.
Qed.

(** X5. A drain writes the first [RING_SIZE] elements of [data] and
    nothing else: the buffer keeps its length and everything from index
    [RING_SIZE] on. *)
Theorem drain_keeps_data_tail s :
  wf s → signalled s ≠ 0 →
  ∃ c s',
    getNextFragment s = Done c s' 0 ∧
    length (data s') = length (data s) ∧
    drop (Z.to_nat RING_SIZE) (data s') = drop (Z.to_nat RING_SIZE) (data s).
Proof.
  intros Hwf Hsig.
  exists (to_int (ring_has s)), (after_drain s).
  split; [by apply getNextFragment_ready|].
  destruct Hwf as (Hring & Hw & Hdata & _).
  pose proof RING_SIZE_pos as HC.
  cbn [after_drain data]. unfold data_after.
  split.
  - case_bool_decide; rewrite ?length_blit; rewrite ?length_blit; lia.
  - apply list_eq. intros i. rewrite !lookup_drop.
    case_bool_decide.
    + rewrite !lookup_blit by (rewrite ?length_blit; lia).
      rewrite !bool_decide_eq_false_2 by lia. done.
    + rewrite lookup_blit by lia.
      rewrite bool_decide_eq_false_2 by lia. done.
Qed.

Lemma run_wakes_balance cs : ∀ s es s' k,
  wf s → Forall call_ok cs → run cs s = Done es s' k →
  (k + unconsumed s = drains cs + unconsumed s')%nat.
Proof.
  induction cs as [|c cs IH]; intros s es s' k Hwf Hok Hrun.
  - injection Hrun as <- <- <-. done.
  - apply Forall_cons in Hok as [Hc Hcs].
    apply run_cons_inv in Hrun as (Hnb & es' & k' & Hrun & _ & ->); [|done..].
    apply IH in Hrun; [|by apply wf_after_call|done].
    unfold unconsumed in *.
    destruct c as [input len|]; cbn [drains wakes_of after_call blocks] in *.
    + rewrite signalled_after_store in Hrun. unfold wakes_consumer in *.
      destruct (bool_decide (MIN_NEW_SAMPLES ≤ to_unsigned (ring_has s + len)));
        destruct (bool_decide_reflect (signalled s = 0)) as [Hz|Hnz];
        cbn [andb] in *; rewrite ?bool_decide_eq_false_2 in Hrun by done;
        rewrite ?bool_decide_eq_true_2 in Hrun by done; lia.
    + cbn [after_drain signalled] in Hrun.
      rewrite Hnb. rewrite bool_decide_eq_true_2 in Hrun by done. lia.
Qed.

(** X6. No wake is lost and none is duplicated: in every run from the
    initial state the number of [SDL_CondSignal] calls equals the number
    of completed drains, plus one while a fragment is waiting to be
    taken. *)
Theorem wakes_match_drains d cs es s k :
  (Z.to_nat RING_SIZE ≤ length d)%nat → Forall call_ok cs →
  run cs (initial d) = Done es s k →
  k = (drains cs + unconsumed s)%nat ∧ (unconsumed s ≤ 1)%nat.
Proof.
  intros Hd Hok Hrun.
  apply run_wakes_balance in Hrun; [|by apply wf_initial|done].
  unfold unconsumed in *. cbn [initial signalled] in Hrun.
  rewrite (bool_decide_eq_true_2 (0 = 0)) in Hrun by done.
  case_bool_decide; lia.
Qed.

Lemma run_stores_below_threshold cs : ∀ s es s' k,
  wf s → Forall call_ok cs → forallb is_store cs = true →
  signalled s = 0 →
  ring_has s + Z.of_nat (length (stored_samples cs)) < MIN_NEW_SAMPLES →
  run cs s = Done es s' k →
  k = 0%nat ∧ signalled s' = 0.
Proof.
  induction cs as [|c cs IH]; intros s es s' k Hwf Hok Hst Hsig Hlow Hrun.
  - injection Hrun as <- <- <-. done.
  - apply Forall_cons in Hok as [Hc Hcs].
    cbn [forallb] in Hst. apply andb_prop in Hst as [Hc' Hst].
    apply run_cons_inv in Hrun as (_ & es' & k' & Hrun & _ & ->); [|done..].
    destruct c as [input len|]; [|done].
    cbn [stored_samples] in Hlow. rewrite length_app, length_take in Hlow.
    destruct Hc as [Hlen Hin].
    pose proof Hwf as (_ & _ & _ & Hhas).
    assert (Hmin : MIN_NEW_SAMPLES < UINT_MOD).
    { rewrite MIN_NEW_SAMPLES_eq.
      pose proof RING_SIZE_int. unfold RING_SIZE, INT_MAX, UINT_MOD in *. lia. }
    assert (Hsum : to_unsigned (ring_has s + len) = ring_has s + len)
      by (apply to_unsigned_small; lia).
    assert (Hw : wakes_consumer len s = false).
    { unfold wakes_consumer. rewrite Hsum.
      rewrite bool_decide_eq_false_2 by lia. done. }
    apply IH in Hrun as [-> Hsig']; [|by apply wf_after_store; [|split]|done|done| |].
    + cbn [wakes_of]. by rewrite Hw.
    + cbn [after_call]. by rewrite signalled_after_store, Hw.
    + cbn [after_call after_store ring_has]. rewrite Hsum. lia.
Qed.

(** X7. Right after a drain the next drain has to wait, and it keeps
    waiting, with no wake issued, while fewer than [MIN_NEW_SAMPLES]
    samples have been stored since. *)
Theorem drain_waits_for_threshold s cs :
  wf s → signalled s ≠ 0 →
  Forall call_ok cs → forallb is_store cs = true →
  Z.of_nat (length (stored_samples cs)) < MIN_NEW_SAMPLES →
  ∃ c s1 es s2,
    getNextFragment s = Done c s1 0 ∧
    getNextFragment s1 = Blocked ∧
    run cs s1 = Done es s2 0 ∧
    getNextFragment s2 = Blocked.
Proof.
  intros Hwf Hsig Hok Hst Hfew.
  pose proof (wf_after_drain s Hwf) as Hwf1.
  destruct (run_stores_done cs (after_drain s) Hwf1 Hok Hst)
    as (es & s2 & k & Hrun).
  pose proof (run_wf _ _ _ _ _ Hwf1 Hok Hrun) as Hwf2.
  destruct (run_stores_below_threshold cs _ _ _ _ Hwf1 Hok Hst eq_refl Hfew Hrun)
    as [-> Hsig2].
  exists (to_int (ring_has s)), (after_drain s), es, s2.
  split; [by apply getNextFragment_ready|].
  split; [rewrite getNextFragment_eq by done; done|].
  split; [done|].
  rewrite getNextFragment_eq by done. by rewrite bool_decide_eq_true_2.
Qed.

Lemma to_unsigned_le x : 0 ≤ x → to_unsigned x ≤ x.
Proof.
  intros Hx. unfold to_unsigned, UINT_MOD. apply Z.mod_le; lia.
Qed.

Lemma run_pending_reached cs : ∀ s h es s' k,
  wf s → Forall call_ok cs →
  0 ≤ h → ring_has s = to_unsigned h →
  (signalled s ≠ 0 → MIN_NEW_SAMPLES ≤ h) →
  run cs s = Done es s' k →
  0 ≤ pending_len h cs ∧
  (signalled s' ≠ 0 → MIN_NEW_SAMPLES ≤ pending_len h cs).
Proof.
  induction cs as [|c cs IH]; intros s h es s' k Hwf Hok Hh Hhas Hsig Hrun.
  - injection Hrun as <- <- <-. done.
  - apply Forall_cons in Hok as [Hc Hcs].
    apply run_cons_inv in Hrun as (_ & es' & k' & Hrun & _ & _); [|done..].
    unfold pending_len. cbn [foldl].
    destruct c as [input len|]; cbn [after_call pending_step] in *.
    + destruct Hc as [Hlen Hin].
      assert (Hsum : to_unsigned (ring_has s + len) = to_unsigned (h + len)).
      { rewrite Hhas. unfold to_unsigned. by rewrite Zplus_mod_idemp_l. }
      eapply IH; [by apply wf_after_store; [|split]|done|lia| | |exact Hrun].
      * cbn [after_store ring_has]. exact Hsum.
      * rewrite signalled_after_store. unfold wakes_consumer. rewrite Hsum.
        pose proof (to_unsigned_le (h + len) ltac:(lia)).
        destruct (bool_decide_reflect (MIN_NEW_SAMPLES ≤ to_unsigned (h + len)));
          destruct (bool_decide_reflect (signalled s = 0));
          cbn [andb]; intros; try lia.
        all: specialize (Hsig ltac:(done)); lia.
    + eapply IH; [by apply wf_after_drain|done|lia|reflexivity| |exact Hrun].
      cbn [after_drain signalled]. done.
Qed.

(** X8. While fewer than 2^31 samples are pending the count a drain
    returns is exact, and it is never below the threshold: the drain
    returns the plain sum of the [len]s stored since the previous drain,
    and that sum is at least [MIN_NEW_SAMPLES]. *)
Theorem drain_count_exact d cs es s k c s' k' :
  (Z.to_nat RING_SIZE ≤ length d)%nat → Forall call_ok cs →
  run cs (initial d) = Done es s k →
  getNextFragment s = Done c s' k' →
  pending_len 0 cs ≤ INT_MAX →
  c = pending_len 0 cs ∧ MIN_NEW_SAMPLES ≤ c.
Proof.
  intros Hd Hok Hrun Hg Hsmall.
  pose proof (wf_initial d Hd) as Hwf0.
  pose proof (run_wf _ _ _ _ _ Hwf0 Hok Hrun) as Hwf.
  apply getNextFragment_done in Hg as (Hsig & -> & _ & _); [|done].
  destruct (run_pending_reached cs (initial d) 0 es s k) as [Hnn Hreach];
    [done|done|lia|reflexivity|done|done|].
  rewrite (run_ring_has cs (initial d) 0 es s k) by done.
  rewrite to_unsigned_small by (unfold INT_MAX, UINT_MOD in *; lia).
  rewrite to_int_small by lia.
  split; [done|]. by apply Hreach.
Qed.

Lemma ring_after_compose input1 len1 input2 len2 s :
  wf s → Z.of_nat (length input1) = len1 → batch_ok input2 len2 →
  len1 + len2 < RING_SIZE →
  ring_after input2 len2 (after_store input1 len1 s)
  = ring_after (input1 ++ input2) (len1 + len2) s.
Proof.
  intros Hwf Hl1 Hb2 Hsum.
  pose proof RING_SIZE_pos as HC.
  assert (Hb1 : batch_ok input1 len1).
  { destruct Hb2 as [[? ?] ?]. unfold batch_ok, UINT_MOD in *.
    pose proof RING_SIZE_int. unfold INT_MAX in *. lia. }
  assert (Hb : batch_ok (input1 ++ input2) (len1 + len2)).
  { destruct Hb1 as [[? ?] ?], Hb2 as [[? ?] ?].
    unfold batch_ok, UINT_MOD in *. rewrite length_app.
    pose proof RING_SIZE_int. unfold INT_MAX in *. lia. }
  pose proof (wf_after_store input1 len1 s Hwf Hb1) as Hwf1.
  pose proof (wf_after_store input2 len2 _ Hwf1 Hb2) as (Hlen2 & _).
  pose proof (wf_after_store _ (len1 + len2) s Hwf Hb) as (Hlenc & _).
  cbn [after_store ring] in Hlen2, Hlenc.
  pose proof Hb1 as [[Hl1pos _] _]. pose proof Hb2 as [[Hl2pos _] Hin2].
  pose proof Hwf as (_ & Hw & _).
  apply list_eq. intros n.
  destruct (decide (n < Z.to_nat RING_SIZE)%nat) as [Hn|Hn].
  2:{ rewrite !(proj2 (lookup_ge_None _ _)); [done|lia|lia]. }
  replace n with (Z.to_nat (Z.of_nat n)) by lia.
  set (i := Z.of_nat n). assert (Hi : 0 ≤ i < RING_SIZE) by lia.
  rewrite (lookup_ring_after_normal input2) by (done || lia).
  rewrite (lookup_ring_after_normal (input1 ++ input2)) by (done || lia).
  cbn [after_store ring ring_write]. unfold cursor_after.
  rewrite (bool_decide_eq_false_2 (RING_SIZE ≤ len1)) by lia.
  rewrite (lookup_ring_after_normal input1) by (done || lia).
  rewrite Zminus_mod_idemp_r.
  replace (i - (ring_write s + len1)) with (i - ring_write s - len1) by lia.
  rewrite <- (Zminus_mod_idemp_l (i - ring_write s) len1).
  pose proof (Z.mod_pos_bound (i - ring_write s) RING_SIZE HC) as Hj.
  set (j := (i - ring_write s) mod RING_SIZE) in *.
  destruct (decide (j < len1)) as [Hfirst|Hnfirst].
  - rewrite (mod_below (j - len1)) by lia.
    rewrite (bool_decide_eq_false_2 (j - len1 + RING_SIZE < len2)) by lia.
    rewrite (bool_decide_eq_true_2 (j < len1)) by done.
    rewrite (bool_decide_eq_true_2 (j < len1 + len2)) by lia.
    rewrite lookup_app_l by lia. done.
  - rewrite (Z.mod_small (j - len1)) by lia.
    rewrite (bool_decide_eq_false_2 (j < len1)) by done.
    destruct (decide (j < len1 + len2)) as [Hsecond|Hnone].
    + rewrite (bool_decide_eq_true_2 (j - len1 < len2)) by lia.
      rewrite (bool_decide_eq_true_2 (j < len1 + len2)) by done.
      rewrite lookup_app_r by lia. f_equal. lia.
    + rewrite (bool_decide_eq_false_2 (j - len1 < len2)) by lia.
      rewrite (bool_decide_eq_false_2 (j < len1 + len2)) by done.
      done.
Qed.

(** X9. Two stores in a row that together stay below [RING_SIZE] samples
    do exactly what one store of the two batches joined does: the same
    final state and the same number of wakes (as long as [ring_has] does
    not wrap). *)
Theorem stores_compose input1 len1 input2 len2 s :
  wf s → Z.of_nat (length input1) = len1 → batch_ok input2 len2 →
  len1 + len2 < RING_SIZE → ring_has s + len1 + len2 < UINT_MOD →
  ∃ es s' k,
    run [Store input1 len1; Store input2 len2] s = Done es s' k ∧
    sndbuf_store (input1 ++ input2) (len1 + len2) s = Done tt s' k.
Proof.
  intros Hwf Hl1 Hb2 Hsum Hnowrap.
  pose proof RING_SIZE_pos as HC.
  assert (Hb1 : batch_ok input1 len1).
  { destruct Hb2 as [[? ?] ?]. unfold batch_ok, UINT_MOD in *.
    pose proof RING_SIZE_int. unfold INT_MAX in *. lia. }
  assert (Hb : batch_ok (input1 ++ input2) (len1 + len2)).
  { destruct Hb1 as [[? ?] ?], Hb2 as [[? ?] ?].
    unfold batch_ok, UINT_MOD in *. rewrite length_app.
    pose proof RING_SIZE_int. unfold INT_MAX in *. lia. }
  pose proof (wf_after_store input1 len1 s Hwf Hb1) as Hwf1.
  rewrite run_cons by done. cbn [blocks after_call].
  rewrite run_cons by done. cbn [blocks after_call run].
  unfold mret at 1. unfold M_ret.
  rewrite sndbuf_store_eq by done.
  eexists _, _, _. split; [reflexivity|].
  cbn [event_of wakes_of].
  pose proof Hwf as (_ & Hw & _ & Hhas).
  pose proof Hb1 as [[Hl1pos _] _]. pose proof Hb2 as [[Hl2pos _] Hin2].
  assert (Hh1 : to_unsigned (ring_has s + len1) = ring_has s + len1)
    by (apply to_unsigned_small; lia).
  assert (Hh2 : to_unsigned (ring_has s + len1 + len2) = ring_has s + len1 + len2)
    by (apply to_unsigned_small; lia).
  set (s1 := after_store input1 len1 s).
  assert (Hr : ring_after input2 len2 s1
               = ring_after (input1 ++ input2) (len1 + len2) s)
    by (by apply ring_after_compose).
  assert (Hc : cursor_after len2 s1 = cursor_after (len1 + len2) s).
  { unfold cursor_after, s1. cbn [after_store ring_write]. unfold cursor_after.
    rewrite !(bool_decide_eq_false_2 (RING_SIZE ≤ _)) by lia.
    rewrite Zplus_mod_idemp_l. f_equal. lia. }
  assert (Hhs1 : ring_has s1 = ring_has s + len1) by exact Hh1.
  assert (Hss1 : signalled s1 = if wakes_consumer len1 s then 1 else signalled s)
    by reflexivity.
  assert (Hstate : after_store input2 len2 s1
                   = after_store (input1 ++ input2) (len1 + len2) s
                   ∧ ((if wakes_consumer len1 s then 1 else 0)
                      + ((if wakes_consumer len2 s1 then 1 else 0) + 0)
                      = if wakes_consumer (len1 + len2) s then 1 else 0)%nat).
  { unfold after_store at 1 2. rewrite Hr, Hc.
    replace (data s1) with (data s) by reflexivity.
    unfold wakes_consumer in *. rewrite Hhs1, Hss1.
    rewrite Hh1, Hh2, !Z.add_assoc, Hh2.
    destruct (bool_decide_reflect (MIN_NEW_SAMPLES ≤ ring_has s + len1));
      destruct (bool_decide_reflect
                  (MIN_NEW_SAMPLES ≤ ring_has s + len1 + len2));
      destruct (bool_decide_reflect (signalled s = 0)) as [Hz|Hnz];
      cbn [andb]; try lia;
      rewrite ?(bool_decide_eq_true_2 (signalled s = 0)) by done;
      rewrite ?(bool_decide_eq_false_2 (signalled s = 0)) by done;
      rewrite ?(bool_decide_eq_false_2 (1 = 0)) by done;
      cbn [andb]; done. }
  destruct Hstate as [-> ->]. done.
Qed.

(** X10. From the initial state no sequence of stores and drains runs
    into undefined behaviour, every completed run leaves the arrays'
    sizes, the cursor and the counter in range, and a run of stores alone
    never has to wait. *)
Theorem runs_are_safe d cs :
  (Z.to_nat RING_SIZE ≤ length d)%nat → Forall call_ok cs →
  run cs (initial d) ≠ Fault ∧
  (∀ es s k, run cs (initial d) = Done es s k → wf s) ∧
  (forallb is_store cs = true → ∃ es s k, run cs (initial d) = Done es s k).
Proof.
  intros Hd Hok. pose proof (wf_initial d Hd) as Hwf0.
  split; [by apply run_no_fault|].
  split; [intros es s k Hrun; by eapply run_wf|].
  intros Hst. by apply run_stores_done.
Qed.

(** X11. On an idle channel with nothing pending, one store of at least
    [MIN_NEW_SAMPLES] samples wakes the consumer once, and the drain that
    follows returns [len] as the count and a fragment that ends with the
    batch. *)
Theorem store_then_drain input len s :
  wf s → signalled s = 0 → ring_has s = 0 →
  batch_ok input len → MIN_NEW_SAMPLES ≤ len ≤ INT_MAX →
  ∃ s1 s2,
    sndbuf_store input len s = Done tt s1 1 ∧
    getNextFragment s1 = Done len s2 0 ∧
    fragment s2
    = last_samples (Z.to_nat RING_SIZE)
        (ring_in_order s ++ take (Z.to_nat len) input) ∧
    (len ≤ RING_SIZE →
       drop (Z.to_nat (RING_SIZE - len)) (fragment s2)
       = take (Z.to_nat len) input).
Proof.
  intros Hwf Hsig Hzero Hb Hlen.
  pose proof (wf_after_store input len s Hwf Hb) as Hwf1.
  pose proof RING_SIZE_pos as HC.
  assert (Hhas1 : to_unsigned (ring_has s + len) = len).
  { rewrite Hzero, Z.add_0_l. apply to_unsigned_small.
    unfold INT_MAX, UINT_MOD in *. rewrite MIN_NEW_SAMPLES_eq in Hlen. lia. }
  assert (Hwake : wakes_consumer len s = true).
  { unfold wakes_consumer. rewrite Hhas1.
    by rewrite !bool_decide_eq_true_2 by (done || lia). }
  exists (after_store input len s), (after_drain (after_store input len s)).
  split; [rewrite sndbuf_store_eq by done; by rewrite Hwake|].
  split.
  { rewrite getNextFragment_ready; [|done|].
    - cbn [after_store ring_has]. rewrite Hhas1, to_int_small; [done|].
      rewrite MIN_NEW_SAMPLES_eq in Hlen. lia.
    - by rewrite signalled_after_store, Hwake. }
  rewrite fragment_after_drain by done.
  rewrite ring_in_order_after_store by done.
  split; [done|].
  intros Hfit. destruct Hb as [_ Hin].
  rewrite MIN_NEW_SAMPLES_eq in Hlen.
  rewrite last_samples_app_short;
    [|by apply length_ring_in_order|rewrite length_take; lia].
  rewrite length_take.
  apply drop_app_length'.
  rewrite length_drop, length_ring_in_order by done. lia.
Qed.

End Soundbuf.

Arguments Fault {sampleType A}.
Arguments Blocked {sampleType A}.
Arguments Done {sampleType A} a s wakes.

(** * Concrete instances

    [NumSamples = 4], so the ring holds 8 samples and the threshold is 4;
    samples are integers. *)

Abbreviation fresh8 := (initial 0 4 (replicate 8%nat 0)).

(** The ring after [sndbuf_store] of [1..5] on the fresh channel. *)
Abbreviation ready8 :=
  {| ring := [1; 2; 3; 4; 5; 0; 0; 0]; ring_write := 5; signalled := 1;
     ring_has := 5; data := replicate 8%nat 0 |}.

Ltac concrete :=
  repeat split; vm_compute;
  first [reflexivity | lia | discriminate | (intros; discriminate)].

Ltac concrete_calls :=
  repeat (apply Forall_cons; split; [concrete|]); apply Forall_nil_2.

Lemma store_overrun_witness :
  0 < 4 ∧ RING_SIZE 4 ≤ INT_MAX ∧ wf 4 fresh8 ∧
  batch_ok [1; 2; 3; 4; 5; 6; 7; 8; 9; 10] 10 ∧ RING_SIZE 4 ≤ 10 ∧
  let input := [1; 2; 3; 4; 5; 6; 7; 8; 9; 10] in
  let latest :=
    take (Z.to_nat (RING_SIZE 4)) (drop (Z.to_nat (10 - RING_SIZE 4)) input) in
  ∃ s' k,
    sndbuf_store 4 input 10 fresh8 = Done tt s' k ∧
    ring s' = latest ∧
    length latest = Z.to_nat (RING_SIZE 4) ∧
    (∀ i, 0 ≤ i < RING_SIZE 4 →
       ring s' !! Z.to_nat i = input !! Z.to_nat (10 - RING_SIZE 4 + i)) ∧
    ring_write s' = 0 ∧
    (∀ c s'' k', getNextFragment 4 s' = Done c s'' k' → fragment 4 s'' = latest) ∧
    (signalled fresh8 ≠ 0 ∨ ring_has fresh8 + 10 < UINT_MOD →
       ∃ c s'', getNextFragment 4 s' = Done c s'' 0).
Proof.
  split; [lia|]. split; [concrete|]. split; [concrete|].
  split; [concrete|]. split; [concrete|].
  apply (store_overrun 4); concrete.
Defined.

Lemma store_normal_witness :
  0 < 4 ∧ RING_SIZE 4 ≤ INT_MAX ∧ wf 4 ready8 ∧
  batch_ok [6; 7; 8; 9; 10] 5 ∧ 5 < RING_SIZE 4 ∧
  let input := [6; 7; 8; 9; 10] in
  let w := ring_write ready8 in
  ∃ s' k,
    sndbuf_store 4 input 5 ready8 = Done tt s' k ∧
    (∀ j, 0 ≤ j < 5 →
       ring s' !! Z.to_nat ((w + j) mod RING_SIZE 4) = input !! Z.to_nat j) ∧
    (∀ i, 0 ≤ i < RING_SIZE 4 →
       (∀ j, 0 ≤ j < 5 → i ≠ (w + j) mod RING_SIZE 4) →
       ring s' !! Z.to_nat i = ring ready8 !! Z.to_nat i) ∧
    length (ring s') = Z.to_nat (RING_SIZE 4) ∧
    ring_write s' = (w + 5) mod RING_SIZE 4 ∧
    (w + 5 = RING_SIZE 4 → ring_write s' = 0) ∧
    (RING_SIZE 4 < w + 5 → ring_write s' = 5 - (RING_SIZE 4 - w)) ∧
    (0 < 5 →
       ring s' !! Z.to_nat w = input !! 0%nat ∧
       ring s' !! Z.to_nat ((ring_write s' - 1) mod RING_SIZE 4)
       = input !! Z.to_nat (5 - 1)).
Proof.
  split; [lia|]. split; [concrete|]. split; [concrete|].
  split; [concrete|]. split; [concrete|].
  apply (store_normal 4); concrete.
Defined.

Lemma drain_in_order_witness :
  0 < 4 ∧ RING_SIZE 4 ≤ INT_MAX ∧ wf 4 ready8 ∧ signalled ready8 ≠ 0 ∧
  let w := Z.to_nat (ring_write ready8) in
  ∃ c s',
    getNextFragment 4 ready8 = Done c s' 0 ∧
    fragment 4 s' = drop w (ring ready8) ++ take w (ring ready8) ∧
    length (drop w (ring ready8)) = Z.to_nat (RING_SIZE 4 - ring_write ready8) ∧
    length (take w (ring ready8)) = w ∧
    length (fragment 4 s') = Z.to_nat (RING_SIZE 4) ∧
    (∀ i, 0 ≤ i < RING_SIZE 4 →
       fragment 4 s' !! Z.to_nat i
       = ring ready8 !! Z.to_nat ((ring_write ready8 + i) mod RING_SIZE 4)).
Proof.
  split; [lia|]. split; [concrete|]. split; [concrete|]. split; [concrete|].
  apply (drain_in_order 4); concrete.
Defined.

Lemma fresh_channel_stream_witness :
  0 < 4 ∧ RING_SIZE 4 ≤ INT_MAX ∧
  (Z.to_nat (RING_SIZE 4) ≤ length (replicate 8%nat 0))%nat ∧
  Forall call_ok [Store [1; 2; 3] 3; Store [4; 5] 2] ∧
  forallb is_store [Store [1; 2; 3] 3; Store [4; 5] 2] = true ∧
  let cs := [Store [1; 2; 3] 3; Store [4; 5] 2] in
  let C := Z.to_nat (RING_SIZE 4) in
  let stream := replicate C 0 ++ stored_samples cs in
  let total := length (stored_samples cs) in
  (∃ es s k,
     run 4 cs fresh8 = Done es s k ∧
     (∀ c s' k', getNextFragment 4 s = Done c s' k' →
        fragment 4 s' = last_samples C stream) ∧
     (MIN_NEW_SAMPLES 4 ≤ Z.of_nat total < UINT_MOD →
        ∃ c s', getNextFragment 4 s = Done c s' 0) ∧
     ((total ≤ C)%nat →
        last_samples C stream = replicate (C - total) 0 ++ stored_samples cs)) ∧
  (∀ (s0 : @state Z) (input1 : list Z) len1 (input2 : list Z) len2,
     wf 4 s0 → batch_ok input1 len1 → batch_ok input2 len2 →
     let both := take (Z.to_nat len1) input1 ++ take (Z.to_nat len2) input2 in
     ∃ es s k,
       run 4 [Store input1 len1; Store input2 len2] s0 = Done es s k ∧
       ∀ c s' k', getNextFragment 4 s = Done c s' k' →
         ((C ≤ length both)%nat → fragment 4 s' = last_samples C both) ∧
         ((length both ≤ C)%nat →
            fragment 4 s' = drop (length both) (ring_in_order s0) ++ both)).
Proof.
  split; [lia|]. split; [concrete|]. split; [concrete|].
  split; [concrete_calls|]. split; [reflexivity|].
  apply (fresh_channel_stream 0 4);
    [lia|concrete|concrete|concrete_calls|reflexivity].
Defined.

Lemma wake_edge_triggered_witness :
  0 < 4 ∧ RING_SIZE 4 ≤ INT_MAX ∧
  wf 4 fresh8 ∧ batch_ok [1; 2; 3; 4; 5] 5 ∧
  signalled fresh8 = 0 ∧
  Forall call_ok [Store [1; 2; 3; 4; 5] 5; Store [6; 7; 8; 9] 4] ∧
  forallb is_store [Store [1; 2; 3; 4; 5] 5; Store [6; 7; 8; 9] 4] = true ∧
  [Store [1; 2; 3; 4; 5] 5; Store [6; 7; 8; 9] 4] ≠ [] ∧
  stays_above 4 (ring_has fresh8)
    [Store [1; 2; 3; 4; 5] 5; Store [6; 7; 8; 9] 4] ∧
  (Z.to_nat (RING_SIZE 4) ≤ length (replicate 8%nat 0))%nat ∧
  Forall call_ok [Store [1; 2; 3; 4; 5] 5; Take] ∧
  let input := [1; 2; 3; 4; 5] in
  let cs := [Store [1; 2; 3; 4; 5] 5; Store [6; 7; 8; 9] 4] in
  let cs2 := [Store [1; 2; 3; 4; 5] 5; Take] in
  (∃ s' k,
     sndbuf_store 4 input 5 fresh8 = Done tt s' k ∧
     ring_has s' = to_unsigned (ring_has fresh8 + 5) ∧
     (MIN_NEW_SAMPLES 4 ≤ to_unsigned (ring_has fresh8 + 5)
      ∧ signalled fresh8 = 0 →
        k = 1%nat ∧ signalled s' = 1) ∧
     (¬ (MIN_NEW_SAMPLES 4 ≤ to_unsigned (ring_has fresh8 + 5)
         ∧ signalled fresh8 = 0) →
        k = 0%nat ∧ signalled s' = signalled fresh8) ∧
     (signalled fresh8 ≠ 0 → k = 0%nat ∧ signalled s' = signalled fresh8)) ∧
  (∃ es s' k, run 4 cs fresh8 = Done es s' k ∧ k = 1%nat ∧ signalled s' = 1) ∧
  getNextFragment 4 fresh8 = Blocked ∧
  (∀ es s' k,
     Take ∈ cs2 → run 4 cs2 fresh8 = Done es s' k → (1 ≤ k)%nat) ∧
  (MIN_NEW_SAMPLES 4 ≤ 5 →
     ∃ es s', run 4 [Store input 5; Take] fresh8 = Done es s' 1).
Proof.
  split; [lia|]. split; [concrete|]. split; [concrete|]. split; [concrete|].
  split; [reflexivity|]. split; [concrete_calls|]. split; [reflexivity|].
  split; [discriminate|]. split; [concrete|]. split; [concrete|].
  split; [concrete_calls|].
  apply (wake_edge_triggered 0 4);
    [lia|concrete|concrete|concrete|concrete|reflexivity|concrete_calls
    |reflexivity|discriminate|concrete|concrete|concrete_calls].
Defined.

(** The runs of the instance above, evaluated: the first store signals,
    the second does not, and the drain returns after that one wake. *)
Lemma wake_runs_evaluated :
  sndbuf_store 4 [1; 2; 3; 4; 5] 5 fresh8 = Done tt ready8 1 ∧
  run 4 [Store [1; 2; 3; 4; 5] 5; Store [6; 7; 8; 9] 4] fresh8
  = Done [Stored [1; 2; 3; 4; 5] 5 5; Stored [6; 7; 8; 9] 4 9]
      {| ring := [9; 2; 3; 4; 5; 6; 7; 8]; ring_write := 1; signalled := 1;
         ring_has := 9; data := replicate 8%nat 0 |} 1 ∧
  run 4 [Store [1; 2; 3; 4; 5] 5; Take] fresh8
  = Done [Stored [1; 2; 3; 4; 5] 5 5; Taken 5 [0; 0; 0; 1; 2; 3; 4; 5]]
      {| ring := [1; 2; 3; 4; 5; 0; 0; 0]; ring_write := 5; signalled := 0;
         ring_has := 0; data := [0; 0; 0; 1; 2; 3; 4; 5] |} 1.
Proof. repeat split; reflexivity. Qed.

(** The state and the fragment after draining [ready8]. *)
Abbreviation drained8 :=
  {| ring := [1; 2; 3; 4; 5; 0; 0; 0]; ring_write := 5; signalled := 0;
     ring_has := 0; data := [0; 0; 0; 1; 2; 3; 4; 5] |}.

Lemma drain_count_witness :
  0 < 4 ∧ RING_SIZE 4 ≤ INT_MAX ∧
  (Z.to_nat (RING_SIZE 4) ≤ length (replicate 8%nat 0))%nat ∧
  Forall call_ok [Store [1; 2; 3; 4; 5] 5] ∧
  run 4 [Store [1; 2; 3; 4; 5] 5] fresh8
  = Done [Stored [1; 2; 3; 4; 5] 5 5] ready8 1 ∧
  getNextFragment 4 ready8 = Done 5 drained8 0 ∧
  let total := pending_len 0 [Store [1; 2; 3; 4; 5] 5] in
  5 = to_int (to_unsigned total) ∧
  to_unsigned 5 = to_unsigned total ∧
  (to_unsigned total ≤ INT_MAX → 5 = to_unsigned total) ∧
  (∃ input len s1 k1 c1 s2 k2,
     batch_ok input len ∧
     sndbuf_store 4 input len fresh8 = Done tt s1 k1 ∧
     getNextFragment 4 s1 = Done c1 s2 k2 ∧ RING_SIZE 4 < c1).
Proof.
  split; [lia|]. split; [concrete|]. split; [concrete|].
  split; [concrete_calls|]. split; [reflexivity|]. split; [reflexivity|].
  apply (drain_count 0 4 ltac:(lia) ltac:(concrete) (replicate 8%nat 0)
           [Store [1; 2; 3; 4; 5] 5] [Stored [1; 2; 3; 4; 5] 5 5]
           ready8 1%nat 5 drained8 0%nat);
    [concrete|concrete_calls|reflexivity|reflexivity].
Defined.

Abbreviation batch_2_31 := (replicate (Z.to_nat 2147483648) 0).

(** C6 as stated fails on the code: after one store of 2^31 samples the
    sum modulo 2^32 is 2147483648, but the [int] that [getNextFragment]
    returns is -2147483648. *)
Lemma drain_count_not_unsigned :
  Forall call_ok [Store batch_2_31 2147483648] ∧
  ∃ es s k s' k',
    run 4 [Store batch_2_31 2147483648] fresh8 = Done es s k ∧
    getNextFragment 4 s = Done (-2147483648) s' k' ∧
    to_unsigned (pending_len 0 [Store batch_2_31 2147483648]) = 2147483648 ∧
    -2147483648 ≠ to_unsigned (pending_len 0 [Store batch_2_31 2147483648]).
Proof.
  assert (Hpos : 0 < 4) by lia.
  assert (Hint : RING_SIZE 4 ≤ INT_MAX) by concrete.
  assert (Hwf : wf 4 fresh8) by concrete.
  assert (Hb : batch_ok batch_2_31 2147483648).
  { unfold batch_ok, UINT_MOD. rewrite length_replicate. lia. }
  assert (Hok : Forall call_ok [Store batch_2_31 2147483648]).
  { apply Forall_cons. split; [exact Hb|apply Forall_nil_2]. }
  pose proof (wf_after_store 4 Hpos batch_2_31 _ _ Hwf Hb) as Hwf'.
  split; [exact Hok|].
  exists [Stored batch_2_31 2147483648 2147483648],
    (after_store 4 batch_2_31 2147483648 fresh8), 1%nat,
    (after_drain 4 (after_store 4 batch_2_31 2147483648 fresh8)), 0%nat.
  split; [|split; [|split]].
  - rewrite (run_cons 4 Hpos Hint) by done. reflexivity.
  - rewrite (getNextFragment_ready 4 Hpos Hint); [reflexivity|exact Hwf'|].
    rewrite signalled_after_store. discriminate.
  - reflexivity.
  - discriminate.
Qed.

Lemma drain_frame_witness :
  0 < 4 ∧ RING_SIZE 4 ≤ INT_MAX ∧ wf 4 ready8 ∧ signalled ready8 ≠ 0 ∧
  ∃ c s',
    getNextFragment 4 ready8 = Done c s' 0 ∧
    ring s' = ring ready8 ∧
    ring_write s' = ring_write ready8 ∧
    c = to_int (ring_has ready8) ∧
    (ring_has ready8 ≤ INT_MAX → c = ring_has ready8) ∧
    ring_has s' = 0 ∧
    signalled s' = 0.
Proof.
  split; [lia|]. split; [concrete|]. split; [concrete|]. split; [concrete|].
  apply (drain_frame 4); concrete.
Defined.

Lemma ready_flag_invariant_witness :
  0 < 4 ∧ RING_SIZE 4 ≤ INT_MAX ∧
  (Z.to_nat (RING_SIZE 4) ≤ length (replicate 8%nat 0))%nat ∧
  Forall call_ok [Store [1; 2; 3; 4; 5] 5] ∧
  run 4 [Store [1; 2; 3; 4; 5] 5] fresh8
  = Done [Stored [1; 2; 3; 4; 5] 5 5] ready8 1 ∧
  let es := [Stored [1; 2; 3; 4; 5] 5 5] in
  let s := ready8 in
  (signalled s ≠ 0 ↔ crossed 4 false es = true) ∧
  (signalled s = 0 → ring_has s < MIN_NEW_SAMPLES 4) ∧
  (signalled s = 0 ∨ signalled s = 1) ∧
  MIN_NEW_SAMPLES 4 = RING_SIZE 4 / 2 ∧
  (∀ input len,
     batch_ok input len → signalled s = 0 →
     ∃ s1 k1,
       sndbuf_store 4 input len s = Done tt s1 k1 ∧
       (signalled s1 = 1 ↔ MIN_NEW_SAMPLES 4 ≤ ring_has s1) ∧
       (signalled s1 = 0 ↔ ring_has s1 < MIN_NEW_SAMPLES 4)) ∧
  (signalled s = 1 →
     ∃ c s1, getNextFragment 4 s = Done c s1 0 ∧ signalled s1 = 0) ∧
  (signalled s = 0 → getNextFragment 4 s = Blocked).
Proof.
  split; [lia|]. split; [concrete|]. split; [concrete|].
  split; [concrete_calls|]. split; [reflexivity|].
  apply (ready_flag_invariant 0 4 ltac:(lia) ltac:(concrete)
           (replicate 8%nat 0) [Store [1; 2; 3; 4; 5] 5]
           [Stored [1; 2; 3; 4; 5] 5 5] ready8 1%nat);
    [concrete|concrete_calls|reflexivity].
Defined.

Lemma calls_are_safe_witness :
  0 < 4 ∧ RING_SIZE 4 ≤ INT_MAX ∧ wf 4 ready8 ∧
  batch_ok [6; 7; 8; 9; 10; 11] 5 ∧
  let input := [6; 7; 8; 9; 10; 11] in
  (∃ s' k,
     sndbuf_store 4 input 5 ready8 = Done tt s' k ∧
     sndbuf_store 4 (take (Z.to_nat 5) input) 5 ready8 = Done tt s' k ∧
     wf 4 s' ∧ 0 ≤ ring_write s' < RING_SIZE 4) ∧
  getNextFragment 4 ready8 ≠ Fault ∧
  (signalled ready8 ≠ 0 →
     ∃ c s', getNextFragment 4 ready8 = Done c s' 0 ∧
             wf 4 s' ∧ 0 ≤ ring_write s' < RING_SIZE 4) ∧
  (∀ (dst : list Z) op src ip n r,
     memcpy dst op src ip n = Some r → 0 < n →
     0 ≤ op ∧ op + n ≤ Z.of_nat (length dst) ∧
     0 ≤ ip ∧ ip + n ≤ Z.of_nat (length src)).
Proof.
  split; [lia|]. split; [concrete|]. split; [concrete|]. split; [concrete|].
  apply (calls_are_safe 4); concrete.
Defined.

Lemma underrun_repeats_witness :
  0 < 4 ∧ RING_SIZE 4 ≤ INT_MAX ∧ wf 4 ready8 ∧ signalled ready8 ≠ 0 ∧
  Forall call_ok [Store [6; 7; 8; 9; 10] 5] ∧
  forallb is_store [Store [6; 7; 8; 9; 10] 5] = true ∧
  let cs := [Store [6; 7; 8; 9; 10] 5] in
  let C := Z.to_nat (RING_SIZE 4) in
  let n := length (stored_samples cs) in
  (n < C)%nat ∧
  ∃ c1 s1 es s2 k,
    getNextFragment 4 ready8 = Done c1 s1 0 ∧
    length (fragment 4 s1) = C ∧
    run 4 cs s1 = Done es s2 k ∧
    (∀ c2 s3 k3,
       getNextFragment 4 s2 = Done c2 s3 k3 →
       length (fragment 4 s3) = C ∧
       fragment 4 s3 = drop n (fragment 4 s1) ++ stored_samples cs ∧
       take (C - n) (fragment 4 s3) = drop n (fragment 4 s1)) ∧
    (MIN_NEW_SAMPLES 4 ≤ Z.of_nat n → ∃ c2 s3, getNextFragment 4 s2 = Done c2 s3 0).
Proof.
  split; [lia|]. split; [concrete|]. split; [concrete|]. split; [concrete|].
  split; [concrete_calls|]. split; [reflexivity|].
  intros cs C n. split; [concrete|].
  apply (underrun_repeats 4);
    [lia|concrete|concrete|concrete|concrete_calls|reflexivity|concrete].
Defined.

(** ** Instances of the further properties *)

Lemma store_empty_witness :
  0 < 4 ∧ RING_SIZE 4 ≤ INT_MAX ∧ wf 4 ready8 ∧ ready_inv 4 ready8 ∧
  sndbuf_store 4 [7] 0 ready8 = Done tt ready8 0.
Proof.
  split; [lia|]. split; [concrete|]. split; [concrete|].
  assert (Hinv : ready_inv 4 ready8).
  { split; [right; reflexivity|intros H; discriminate H]. }
  split; [exact Hinv|].
  apply (store_empty 4); [lia|concrete|concrete|exact Hinv].
Defined.

Lemma store_fault_iff_witness :
  0 < 4 ∧ RING_SIZE 4 ≤ INT_MAX ∧ wf 4 fresh8 ∧ 0 ≤ 3 < UINT_MOD ∧
  (sndbuf_store 4 [1; 2] 3 fresh8 = Fault ↔ Z.of_nat (length [1; 2]) < 3).
Proof.
  split; [lia|]. split; [concrete|]. split; [concrete|]. split; [concrete|].
  apply (store_fault_iff 4); concrete.
Defined.

(** A ready channel whose [data] has room for three samples only. *)
Abbreviation cramped8 :=
  {| ring := [1; 2; 3; 4; 5; 0; 0; 0]; ring_write := 5; signalled := 1;
     ring_has := 5; data := [0; 0; 0] |}.

Lemma drain_fault_iff_witness :
  0 < 4 ∧ RING_SIZE 4 ≤ INT_MAX ∧
  length (ring cramped8) = Z.to_nat (RING_SIZE 4) ∧
  0 ≤ ring_write cramped8 < RING_SIZE 4 ∧
  0 ≤ ring_has cramped8 < UINT_MOD ∧
  signalled cramped8 ≠ 0 ∧
  (getNextFragment 4 cramped8 = Fault
   ↔ (length (data cramped8) < Z.to_nat (RING_SIZE 4))%nat).
Proof.
  split; [lia|]. split; [concrete|]. split; [reflexivity|].
  split; [concrete|]. split; [concrete|]. split; [concrete|].
  apply (drain_fault_iff 4); concrete.
Defined.

Lemma stores_keep_data_witness :
  0 < 4 ∧ RING_SIZE 4 ≤ INT_MAX ∧ wf 4 drained8 ∧
  Forall call_ok [Store [6; 7] 2] ∧
  forallb is_store [Store [6; 7] 2] = true ∧
  ∃ es s' k,
    run 4 [Store [6; 7] 2] drained8 = Done es s' k ∧
    data s' = data drained8 ∧ fragment 4 s' = fragment 4 drained8.
Proof.
  split; [lia|]. split; [concrete|]. split; [concrete|].
  split; [concrete_calls|]. split; [reflexivity|].
  apply (stores_keep_data 4); [lia|concrete|concrete|concrete_calls|reflexivity].
Defined.

(** A ready channel whose [data] is longer than a fragment. *)
Abbreviation roomy8 :=
  {| ring := [1; 2; 3; 4; 5; 0; 0; 0]; ring_write := 5; signalled := 1;
     ring_has := 5; data := replicate 10%nat 9 |}.

Lemma drain_keeps_data_tail_witness :
  0 < 4 ∧ RING_SIZE 4 ≤ INT_MAX ∧ wf 4 roomy8 ∧ signalled roomy8 ≠ 0 ∧
  ∃ c s',
    getNextFragment 4 roomy8 = Done c s' 0 ∧
    length (data s') = length (data roomy8) ∧
    drop (Z.to_nat (RING_SIZE 4)) (data s')
    = drop (Z.to_nat (RING_SIZE 4)) (data roomy8).
Proof.
  split; [lia|]. split; [concrete|]. split; [concrete|]. split; [concrete|].
  apply (drain_keeps_data_tail 4); concrete.
Defined.

Lemma wakes_match_drains_witness :
  0 < 4 ∧ RING_SIZE 4 ≤ INT_MAX ∧
  (Z.to_nat (RING_SIZE 4) ≤ length (replicate 8%nat 0))%nat ∧
  Forall call_ok [Store [1; 2; 3; 4; 5] 5; Take] ∧
  run 4 [Store [1; 2; 3; 4; 5] 5; Take] fresh8
  = Done [Stored [1; 2; 3; 4; 5] 5 5; Taken 5 [0; 0; 0; 1; 2; 3; 4; 5]]
      drained8 1 ∧
  1%nat = Nat.add (drains [Store [1; 2; 3; 4; 5] 5; Take])
                  (unconsumed drained8) ∧
  (unconsumed drained8 ≤ 1)%nat.
Proof.
  split; [lia|]. split; [concrete|]. split; [concrete|].
  split; [concrete_calls|]. split; [reflexivity|].
  apply (wakes_match_drains 0 4 ltac:(lia) ltac:(concrete)
           (replicate 8%nat 0) [Store [1; 2; 3; 4; 5] 5; Take]
           [Stored [1; 2; 3; 4; 5] 5 5; Taken 5 [0; 0; 0; 1; 2; 3; 4; 5]]
           drained8 1%nat);
    [concrete|concrete_calls|reflexivity].
Defined.

Lemma drain_waits_for_threshold_witness :
  0 < 4 ∧ RING_SIZE 4 ≤ INT_MAX ∧ wf 4 ready8 ∧ signalled ready8 ≠ 0 ∧
  Forall call_ok [Store [6; 7] 2] ∧
  forallb is_store [Store [6; 7] 2] = true ∧
  Z.of_nat (length (stored_samples [Store [6; 7] 2])) < MIN_NEW_SAMPLES 4 ∧
  ∃ c s1 es s2,
    getNextFragment 4 ready8 = Done c s1 0 ∧
    getNextFragment 4 s1 = Blocked ∧
    run 4 [Store [6; 7] 2] s1 = Done es s2 0 ∧
    getNextFragment 4 s2 = Blocked.
Proof.
  split; [lia|]. split; [concrete|]. split; [concrete|]. split; [concrete|].
  split; [concrete_calls|]. split; [reflexivity|]. split; [concrete|].
  apply (drain_waits_for_threshold 4);
    [lia|concrete|concrete|concrete|concrete_calls|reflexivity|concrete].
Defined.

Lemma drain_count_exact_witness :
  0 < 4 ∧ RING_SIZE 4 ≤ INT_MAX ∧
  (Z.to_nat (RING_SIZE 4) ≤ length (replicate 8%nat 0))%nat ∧
  Forall call_ok [Store [1; 2; 3; 4; 5] 5] ∧
  run 4 [Store [1; 2; 3; 4; 5] 5] fresh8
  = Done [Stored [1; 2; 3; 4; 5] 5 5] ready8 1 ∧
  getNextFragment 4 ready8 = Done 5 drained8 0 ∧
  pending_len 0 [Store [1; 2; 3; 4; 5] 5] ≤ INT_MAX ∧
  5 = pending_len 0 [Store [1; 2; 3; 4; 5] 5] ∧ MIN_NEW_SAMPLES 4 ≤ 5.
Proof.
  split; [lia|]. split; [concrete|]. split; [concrete|].
  split; [concrete_calls|]. split; [reflexivity|]. split; [reflexivity|].
  split; [concrete|].
  apply (drain_count_exact 0 4 ltac:(lia) ltac:(concrete) (replicate 8%nat 0)
           [Store [1; 2; 3; 4; 5] 5] [Stored [1; 2; 3; 4; 5] 5 5]
           ready8 1%nat 5 drained8 0%nat);
    [concrete|concrete_calls|reflexivity|reflexivity|concrete].
Defined.

Lemma stores_compose_witness :
  0 < 4 ∧ RING_SIZE 4 ≤ INT_MAX ∧ wf 4 fresh8 ∧
  Z.of_nat (length [1; 2; 3]) = 3 ∧ batch_ok [4; 5] 2 ∧
  3 + 2 < RING_SIZE 4 ∧ ring_has fresh8 + 3 + 2 < UINT_MOD ∧
  ∃ es s' k,
    run 4 [Store [1; 2; 3] 3; Store [4; 5] 2] fresh8 = Done es s' k ∧
    sndbuf_store 4 ([1; 2; 3] ++ [4; 5]) (3 + 2) fresh8 = Done tt s' k.
Proof.
  split; [lia|]. split; [concrete|]. split; [concrete|].
  split; [reflexivity|]. split; [concrete|]. split; [concrete|].
  split; [concrete|].
  apply (stores_compose 4); concrete.
Defined.

Lemma runs_are_safe_witness :
  0 < 4 ∧ RING_SIZE 4 ≤ INT_MAX ∧
  (Z.to_nat (RING_SIZE 4) ≤ length (replicate 8%nat 0))%nat ∧
  Forall call_ok [Store [1; 2; 3; 4; 5] 5; Take] ∧
  let cs := [Store [1; 2; 3; 4; 5] 5; Take] in
  run 4 cs fresh8 ≠ Fault ∧
  (∀ es s k, run 4 cs fresh8 = Done es s k → wf 4 s) ∧
  (forallb is_store cs = true → ∃ es s k, run 4 cs fresh8 = Done es s k).
Proof.
  split; [lia|]. split; [concrete|]. split; [concrete|].
  split; [concrete_calls|].
  apply (runs_are_safe 0 4); [lia|concrete|concrete|concrete_calls].
Defined.

Lemma store_then_drain_witness :
  0 < 4 ∧ RING_SIZE 4 ≤ INT_MAX ∧ wf 4 fresh8 ∧
  signalled fresh8 = 0 ∧ ring_has fresh8 = 0 ∧
  batch_ok [1; 2; 3; 4; 5] 5 ∧ MIN_NEW_SAMPLES 4 ≤ 5 ≤ INT_MAX ∧
  ∃ s1 s2,
    sndbuf_store 4 [1; 2; 3; 4; 5] 5 fresh8 = Done tt s1 1 ∧
    getNextFragment 4 s1 = Done 5 s2 0 ∧
    fragment 4 s2
    = last_samples (Z.to_nat (RING_SIZE 4))
        (ring_in_order fresh8 ++ take (Z.to_nat 5) [1; 2; 3; 4; 5]) ∧
    (5 ≤ RING_SIZE 4 →
       drop (Z.to_nat (RING_SIZE 4 - 5)) (fragment 4 s2)
       = take (Z.to_nat 5) [1; 2; 3; 4; 5]).
Proof.
  split; [lia|]. split; [concrete|]. split; [concrete|].
  split; [reflexivity|]. split; [reflexivity|].
  split; [concrete|]. split; [concrete|].
  apply (store_then_drain 4); concrete.
Defined.
